(** * vue: the template engine

    A shallow embedding of the template engine of package [vue]: the
    attribute orderer, the directive dispatcher with its six handlers,
    the traversal driver and the text pass, followed by the properties
    of the engine that the specification states.

    Go strings are byte strings: they are [string] here (a list of
    8-bit characters).  The data context [map[string]interface{}] is a
    [gmap string Value].  The tree of [html.Node]s is a tree of values;
    a node is executed with its place among the children of its parent
    at hand, and a pointer to a sibling is the chain of siblings that
    starts there. *)

From Stdlib Require Import ZArith Ascii String List Permutation Sorted Lia.
From stdpp Require Import base option gmap strings list pretty.

Local Open Scope string_scope.
Local Open Scope Z_scope.
Local Set Warnings "-register-all".

(** ** The functions of Go's [strings] and [bytes] packages that the
    engine calls on keys and expressions *)

Module Strings.

(** [strings.HasPrefix(s, prefix)] *)
Fixpoint HasPrefix (s pre : string) {struct pre} : bool :=
  match pre with
  | EmptyString => true
  | String a pre' =>
      match s with
      | EmptyString => false
      | String b s' => if Ascii.eqb a b then HasPrefix s' pre' else false
      end
  end.

(** The scan of [strings.Split(s, sep)] for a non-empty [sep]: [cur] is
    the piece being collected, [skip] the number of bytes of a matched
    separator still to be passed over. *)
Fixpoint splitFrom (sep : string) (skip : nat) (cur s : string) {struct s}
  : list string :=
  match s with
  | EmptyString => [cur]
  | String c s' =>
      match skip with
      | S k => splitFrom sep k cur s'
      | O =>
          if HasPrefix s sep
          then cur :: splitFrom sep (String.length sep - 1) EmptyString s'
          else splitFrom sep 0 (cur +:+ String c EmptyString) s'
      end
  end.

(** [strings.Split(s, sep)], for the non-empty separators the engine
    uses (":" and "in"): the pieces of [s] between the occurrences of
    [sep], found from left to right without overlap. *)
Definition Split (s sep : string) : list string :=
  splitFrom sep 0 EmptyString s.

Definition byte (n : N) : ascii := ascii_of_N n.

Fixpoint bytes (l : list N) : string :=
  match l with
  | [] => EmptyString
  | n :: l' => String (byte n) (bytes l')
  end.

(** The white space of [unicode.IsSpace] in UTF-8: the six ASCII
    characters tab, line feed, vertical tab, form feed, carriage return
    and space, then U+0085, U+00A0, U+1680, U+2000 to U+200A, U+2028,
    U+2029, U+202F, U+205F and U+3000. *)
Definition spaces : list string :=
  map bytes
    [ [9]; [10]; [11]; [12]; [13]; [32];
      [194; 133]; [194; 160]; [225; 154; 128];
      [226; 128; 128]; [226; 128; 129]; [226; 128; 130]; [226; 128; 131];
      [226; 128; 132]; [226; 128; 133]; [226; 128; 134]; [226; 128; 135];
      [226; 128; 136]; [226; 128; 137]; [226; 128; 138];
      [226; 128; 168]; [226; 128; 169]; [226; 128; 175];
      [226; 129; 159]; [227; 128; 128] ]%N.

(** [s[n:]], all of [s] gone when it is shorter. *)
Fixpoint dropBytes (n : nat) (s : string) : string :=
  match n, s with
  | S k, String _ s' => dropBytes k s'
  | _, _ => s
  end.

(** [s] without its first rune when that rune is one of [sps]. *)
Definition dropRune (sps : list string) (s : string) : option string :=
  match List.find (HasPrefix s) sps with
  | Some sp => Some (dropBytes (String.length sp) s)
  | None => None
  end.

Fixpoint trimStart (sps : list string) (fuel : nat) (s : string) : string :=
  match fuel with
  | O => s
  | S f =>
      match dropRune sps s with
      | Some s' => trimStart sps f s'
      | None => s
      end
  end.

Definition TrimLeft (s : string) : string :=
  trimStart spaces (String.length s) s.

(** White space at the end is white space at the start of the reversed
    string, each encoding read backwards. *)
Definition TrimRight (s : string) : string :=
  String.rev (trimStart (map String.rev spaces) (String.length s) (String.rev s)).

(** [strings.TrimSpace(s)] and [bytes.TrimSpace(s)] *)
Definition TrimSpace (s : string) : string := TrimRight (TrimLeft s).

End Strings.

Import Strings.

(** ** Attributes and their order *)

(** [html.Attribute]; the engine never reads or writes the name space
    of an attribute. *)
Record Attribute := mkAttr { Key : string; Val : string }.

Definition v : string := "v-".
Definition vBind : string := "v-bind".
Definition vFor : string := "v-for".
Definition vHtml : string := "v-html".
Definition vIf : string := "v-if".
Definition vModel : string := "v-model".
Definition vOn : string := "v-on".

Definition attrOrder : list string := [vFor; vIf; vModel; vOn; vBind; vHtml].

(** [orderAttrs], on the attribute list of the node: for each prefix of
    [attrOrder] in turn the attributes that carry it, then the
    attributes that are no vue attributes. *)
Definition orderAttrs (attrs : list Attribute) : list Attribute :=
  match attrs with
  | [] => attrs
  | _ =>
      flat_map (fun pre => List.filter (fun attr => HasPrefix (Key attr) pre) attrs)
               attrOrder
      ++ List.filter (fun attr => negb (HasPrefix (Key attr) v)) attrs
  end.

(** [deleteAttr]: [append(node.Attr[:i], node.Attr[i+1:]...)]. *)
Definition deleteAttr (attrs : list Attribute) (i : nat) : list Attribute :=
  firstn i attrs ++ skipn (S i) attrs.

(** ** The data model *)

(** A value of the data context (a Go [interface{}]): a string, a
    bool, an integer, a slice, or a value of another type that has no
    length (a float, a struct, a pointer, a func); [shown] is how [%v]
    prints it.  Maps, arrays and channels, which have a length and are
    no slices, are not among the values of the model. *)
Inductive Value :=
| VString (s : string)
| VBool (b : bool)
| VInt (n : Z)
| VSlice (l : list Value)
| VOther (shown : string).

(** The element part of an [html.Node]: tag name, attributes in
    order, children in order. *)
Record Elem (N : Type) := mkElem {
  Data : string;
  Attr : list Attribute;
  Children : list N
}.
Arguments mkElem {N} _ _ _.
Arguments Data {N} _.
Arguments Attr {N} _.
Arguments Children {N} _.

(** An [html.Node].  Only element nodes carry attributes and children;
    [Comment] stands for a node of any other type (comment, doctype),
    which the engine passes over. *)
Inductive Node :=
| Element (e : Elem Node)
| Text (content : string)
| Comment (content : string).

(** What the engine panics with.  The messages of the source are
    "unknown vue attribute: %v", "unknown data field: %s", "data
    field is not of type string: %T" (which prints the type of the
    field name), "slice not found for field: %s"; [Foreign] is an
    error returned by the markup or the mustache library and passed
    to [must]; the last three are panics of the Go runtime. *)
Inductive Error :=
| UnknownAttribute (typ : string)
| UnknownDataField (field : string)
| NotOfTypeString
| SliceNotFound (field : string)
| Foreign (what : string)
| IndexOutOfRange
| NilDereference
| ReflectPanic.

(** The result of a call: a value, a panic, or no more fuel (the
    loops of the engine have no bound that the code shows). *)
Inductive Res (A : Type) :=
| Ok (a : A)
| Panic (e : Error)
| OutOfFuel.
Arguments Ok {A} _.
Arguments Panic {A} _.
Arguments OutOfFuel {A}.

(** The handlers of the component's callback that the engine
    registers: [callback.vModel] and [callback.vOn]. *)
Inductive Handler := HModel | HOn.

(** What an execution shares between all nodes: the counter
    [tmpl.id], the data context, and the listeners registered with
    [tmpl.comp.callback], latest last. *)
Record World := mkWorld {
  id : Z;
  data : gmap string Value;
  listeners : list (string * Handler)
}.

(** Where a node hangs.  [attached] is [node.Parent != nil]; [prevs]
    and [nexts] are the other children of the parent, before and after
    the place of the node: the chains of [PrevSibling] and
    [NextSibling].  Once the node is removed, [prevs ++ nexts] are the
    children that the former parent keeps. *)
Record Place := mkPlace {
  attached : bool;
  prevs : list Node;
  nexts : list Node
}.

(** A pointer to a sibling is the chain that starts at it: the node
    and the siblings after it; [nil] is the empty chain. *)
Definition Ptr : Type := list Node.

(** [fmt.Sprintf("%v", field)] *)
Fixpoint fmtV (x : Value) : string :=
  match x with
  | VString s => s
  | VBool true => "true"
  | VBool false => "false"
  | VInt n => pretty n
  | VSlice l => "[" +:+ String.concat " " (map fmtV l) +:+ "]"
  | VOther shown => shown
  end.

(** [reflect.ValueOf(slice)] read by [Len] and [Index]: the elements
    of a slice, the bytes of a string; [None] where [Len] panics, as
    it does on a bool, on an integer and on the other values of the
    model, which have no length. *)
Definition elements (x : Value) : option (list Value) :=
  match x with
  | VSlice l => Some l
  | VString s => Some (map (fun c => VInt (Z.of_N (N_of_ascii c))) (list_ascii_of_string s))
  | _ => None
  end.

(** [int64] addition of one *)
Definition incr64 (n : Z) : Z := (n + 1 + 2 ^ 63) mod 2 ^ 64 - 2 ^ 63.

(** ** The engine *)

(** The collaborators of the engine.  [Comp] is the component type of
    the package, with [newSub] (of the owning component), [hasProp]
    (called on a [sub] that is nil when the element is no
    subcomponent), the assignment [sub.props[prop] = field] and
    [newViewModel(sub).executeSub()].  [ParseFragment] and [Render] are
    those of the markup library, the former in the context of a [div]
    element; [mustacheRender] is [mustache.Render]; [Replace] is
    [bytes.Replace] with [n = -1]; [Title] is [strings.Title].  The
    three that can return an error return [None] for it. *)
Class Host := {
  Comp : Type;
  newSub : string -> option Comp;
  hasProp : option Comp -> string -> bool;
  setProp : Comp -> string -> Value -> Comp;
  executeSub : Comp -> Res Node;
  ParseFragment : string -> option (list Node);
  Render : Node -> option string;
  mustacheRender : string -> gmap string Value -> option string;
  Replace : string -> string -> string -> string;
  Title : string -> string
}.

Section Engine.

Context {host : Host}.

(** The memory that the execution of one element works on: the
    element, where it hangs, the subcomponent created from it (nil when
    there is none), and what the execution shares. *)
Record Mem := mkMem {
  node : Elem Node;
  place : Place;
  sub : option Comp;
  world : World
}.

Definition withAttr (a : list Attribute) (m : Mem) : Mem :=
  mkMem (mkElem (Data (node m)) a (Children (node m))) (place m) (sub m) (world m).
Definition withChildren (c : list Node) (m : Mem) : Mem :=
  mkMem (mkElem (Data (node m)) (Attr (node m)) c) (place m) (sub m) (world m).
Definition withPlace (p : Place) (m : Mem) : Mem :=
  mkMem (node m) p (sub m) (world m).
Definition withSub (s : option Comp) (m : Mem) : Mem :=
  mkMem (node m) (place m) s (world m).
Definition withWorld (w : World) (m : Mem) : Mem :=
  mkMem (node m) (place m) (sub m) w.

(** A computation on that memory.  A panic leaves the memory as it was
    when the panic was raised. *)
Definition M (A : Type) : Type := Mem -> Mem * Res A.

Definition ret {A} (a : A) : M A := fun m => (m, Ok a).
Definition bind {A B} (c : M A) (k : A -> M B) : M B :=
  fun m =>
    match c m with
    | (m', Ok a) => k a m'
    | (m', Panic e) => (m', Panic e)
    | (m', OutOfFuel) => (m', OutOfFuel)
    end.
Definition panic {A} (e : Error) : M A := fun m => (m, Panic e).
Definition get : M Mem := fun m => (m, Ok m).
Definition modify (f : Mem -> Mem) : M unit := fun m => (f m, Ok tt).

Notation "x <- c ;; k" := (bind c (fun x => k))
  (at level 100, c at next level, right associativity).
Notation "c ;;; k" := (bind c (fun _ => k))
  (at level 100, right associativity).

(** Modelled from the spec: [must] is not among the sources; the
    specification makes every error fatal to the whole execution, so
    [must(err)] with an error panics with it. *)
Definition must {A} (err : Error) : M A := panic err.

(** [node.Attr = append(node.Attr, attr)] *)
Definition appendAttr (attr : Attribute) : M unit :=
  modify (fun m => withAttr (Attr (node m) ++ [attr]) m).

(** Modelled from the spec: [tmpl.comp.callback.addEventListener] is
    not among the sources; the specification has the engine register
    the handler with the event subsystem for the event type.  The
    registrations are kept in the order in which they are made. *)
Definition addEventListener (typ : string) (h : Handler) : M unit :=
  modify (fun m =>
    withWorld (mkWorld (id (world m)) (data (world m))
                       (listeners (world m) ++ [(typ, h)])) m).

(** [node.NextSibling] *)
Definition NextSibling (p : Place) : Ptr :=
  if attached p then nexts p else [].

(** [node.Parent.InsertBefore(child, node)], for a [child] that hangs
    nowhere. *)
Definition InsertBefore (child : Node) : M unit :=
  m <- get;;
  if attached (place m)
  then modify (withPlace (mkPlace true (prevs (place m) ++ [child]) (nexts (place m))))
  else panic NilDereference.

(** [node.Parent.RemoveChild(node)] *)
Definition RemoveChild : M unit :=
  m <- get;;
  if attached (place m)
  then modify (withPlace (mkPlace false (prevs (place m)) (nexts (place m))))
  else panic NilDereference.

(** [node.AppendChild(child)], for a [child] that hangs nowhere. *)
Definition AppendChild (child : Node) : M unit :=
  modify (fun m => withChildren (Children (node m) ++ [child]) m).

Fixpoint forEach {A} (l : list A) (body : A -> M unit) : M unit :=
  match l with
  | [] => ret tt
  | x :: l' => body x;;; forEach l' body
  end.

(** [parseNodes] *)
Definition parseNodes (markup : string) : M (list Node) :=
  match ParseFragment markup with
  | Some nodes => ret nodes
  | None => must (Foreign "html.ParseFragment")
  end.

(** [children] *)
Definition children (n : Node) : list Node :=
  match n with
  | Element e => Children e
  | _ => []
  end.

(** [executeAttrBind] *)
Definition executeAttrBind (key value : string) : M unit :=
  m <- get;;
  match data (world m) !! value with
  | None => must (UnknownDataField value)
  | Some field =>
      let prop := Title key in
      if hasProp (sub m) prop then
        match sub m with
        | Some s => modify (withSub (Some (setProp s prop field)))
        | None => panic NilDereference
        end
      else
        match field with
        | VBool false => ret tt
        | _ => appendAttr (mkAttr key (fmtV field))
        end
  end.

(** The loop of [executeAttrFor] over the elements of the slice, from
    the element at hand on; [buf] is what the buffer holds. *)
Fixpoint forLoop (name elem : string) (values : list Value) (buf : string)
  : M string :=
  match values with
  | [] => ret buf
  | x :: values' =>
      m <- get;;
      let key := name +:+ pretty (id (world m)) in
      let b := Replace elem name key in
      modify (fun m => withWorld
        (mkWorld (incr64 (id (world m))) (<[key := x]> (data (world m)))
                 (listeners (world m))) m);;;
      forLoop name elem values' (buf +:+ b)
  end.

(** The two names of the expression of a [v-for]: lines 166 to 168 of
    [executeAttrFor]. *)
Definition forNames (value : string) : M (string * string) :=
  let vals := Split value "in" in
  match vals !! 0%nat, vals !! 1%nat with
  | Some v0, Some v1 => ret (TrimSpace v0, TrimSpace v1)
  | _, _ => panic IndexOutOfRange
  end.

(** [executeAttrFor]; the result is the pair (next, modified). *)
Definition executeAttrFor (value : string) : M (Ptr * bool) :=
  names <- forNames value;;
  let name := fst names in
  let field := snd names in
  m <- get;;
  match data (world m) !! field with
  | None => must (SliceNotFound field)
  | Some slice =>
      match Render (Element (node m)) with
      | None => must (Foreign "html.Render")
      | Some elem =>
          match elements slice with
          | None => panic ReflectPanic
          | Some values =>
              buf <- forLoop name elem values "";;
              nodes <- parseNodes buf;;
              forEach nodes InsertBefore;;;
              RemoveChild;;;
              m <- get;;
              match nodes with
              | [] => panic IndexOutOfRange
              | _ :: _ => ret ((nodes ++ nexts (place m))%list, true)
              end
          end
      end
  end.

(** [executeAttrHtml] *)
Definition executeAttrHtml (field : string) : M unit :=
  m <- get;;
  match data (world m) !! field with
  | None => must (UnknownDataField field)
  | Some (VString html) =>
      nodes <- parseNodes html;;
      forEach nodes AppendChild
  | Some _ => must NotOfTypeString
  end.

(** [executeAttrIf]; the result is the pair (next, modified). *)
Definition executeAttrIf (field : string) : M (Ptr * bool) :=
  m <- get;;
  match data (world m) !! field with
  | Some (VBool true) => ret ([], false)
  | _ =>
      let next := NextSibling (place m) in
      RemoveChild;;;
      ret (next, true)
  end.

(** [executeAttrModel] *)
Definition executeAttrModel (field : string) : M unit :=
  let typ := "input" in
  appendAttr (mkAttr typ field);;;
  addEventListener typ HModel;;;
  m <- get;;
  match data (world m) !! field with
  | None => must (UnknownDataField field)
  | Some (VString val) => appendAttr (mkAttr "value" val)
  | Some _ => must NotOfTypeString
  end.

(** [executeAttrOn] *)
Definition executeAttrOn (typ method : string) : M unit :=
  appendAttr (mkAttr typ method);;;
  addEventListener typ HOn.

(** [executeAttr] *)
Definition executeAttr (attr : Attribute) : M (Ptr * bool) :=
  let vals := Split (Key attr) ":" in
  let typ := default "" (vals !! 0%nat) in
  let part := default "" (vals !! 1%nat) in
  if String.eqb typ vBind then
    executeAttrBind part (Val attr);;; ret ([], false)
  else if String.eqb typ vFor then
    executeAttrFor (Val attr)
  else if String.eqb typ vHtml then
    executeAttrHtml (Val attr);;; ret ([], false)
  else if String.eqb typ vIf then
    executeAttrIf (Val attr)
  else if String.eqb typ vModel then
    executeAttrModel (Val attr);;; ret ([], false)
  else if String.eqb typ vOn then
    executeAttrOn part (Val attr);;; ret ([], false)
  else
    must (UnknownAttribute typ).

(** The loop of [executeElement] over the attributes of the node, at
    index [i].  The result is [Some next] where the source returns
    [next] out of the loop, and [None] when the loop ends. *)
Fixpoint executeAttrs (fuel : nat) (i : nat) : M (option Ptr) :=
  match fuel with
  | O => fun m => (m, OutOfFuel)
  | S fuel' =>
      m <- get;;
      match Attr (node m) !! i with
      | None => ret None
      | Some attr =>
          if HasPrefix (Key attr) v then
            modify (fun m => withAttr (deleteAttr (Attr (node m)) i) m);;;
            r <- executeAttr attr;;
            if snd r then ret (Some (fst r)) else executeAttrs fuel' i
          else executeAttrs fuel' (S i)
      end
  end.

(** The children of the parent of a node (of its former parent, once
    it is removed). *)
Definition siblings (n : Node) (p : Place) : list Node :=
  (prevs p ++ (if attached p then [n] else []) ++ nexts p)%list.

(** The children that come before the one a pointer points at. *)
Definition before (kids : list Node) (child : Ptr) : list Node :=
  firstn (length kids - length child) kids.

(** What a call of [executeElement] leaves: the node it was called
    on, where that node hangs, what the execution shares, and the
    pointer it returns. *)
Definition Visit : Type := Node * Place * World * Ptr.

(** The loop of [executeElement] over the children: [kids] are the
    children of the node, [child] the pointer of the loop; [exec] is
    [tmpl.executeElement]. *)
Fixpoint executeChildren (exec : Node -> Place -> World -> Res Visit)
    (fuel : nat) (kids : list Node) (child : Ptr) (w : World)
  : Res (list Node * World) :=
  match fuel with
  | O => OutOfFuel
  | S fuel' =>
      match child with
      | [] => Ok (kids, w)
      | c :: rest =>
          match exec c (mkPlace true (before kids child) rest) w with
          | Ok (c', p', w', next) =>
              executeChildren exec fuel' (siblings c' p') next w'
          | Panic e => Panic e
          | OutOfFuel => OutOfFuel
          end
      end
  end.

(** The end of [executeElement] for a subcomponent: its rendered
    children take the place of the node. *)
Definition spliceSub (subNode : Node) : M Ptr :=
  forEach (children subNode) InsertBefore;;;
  m <- get;;
  let next := NextSibling (place m) in
  RemoveChild;;;
  ret next.

(** [executeElement] *)
Fixpoint executeElement (fuel : nat) (n : Node) (p : Place) (w : World)
  : Res Visit :=
  match fuel with
  | O => OutOfFuel
  | S fuel' =>
      match n with
      | Element e =>
          let m0 := mkMem (mkElem (Data e) (orderAttrs (Attr e)) (Children e))
                          p (newSub (Data e)) w in
          match executeAttrs fuel' 0 m0 with
          | (m, Ok (Some next)) => Ok (Element (node m), place m, world m, next)
          | (m, Ok None) =>
              match sub m with
              | Some s =>
                  match executeSub s with
                  | Ok subNode =>
                      match spliceSub subNode m with
                      | (m', Ok next) => Ok (Element (node m'), place m', world m', next)
                      | (_, Panic err) => Panic err
                      | (_, OutOfFuel) => OutOfFuel
                      end
                  | Panic err => Panic err
                  | OutOfFuel => OutOfFuel
                  end
              | None =>
                  match executeChildren (executeElement fuel') fuel'
                          (Children (node m)) (Children (node m)) (world m) with
                  | Ok (kids, w') =>
                      Ok (Element (mkElem (Data (node m)) (Attr (node m)) kids),
                          place m, w', NextSibling (place m))
                  | Panic err => Panic err
                  | OutOfFuel => OutOfFuel
                  end
              end
          | (_, Panic err) => Panic err
          | (_, OutOfFuel) => OutOfFuel
          end
      | _ => Ok (n, p, w, NextSibling p)
      end
  end.

(** [executeText] *)
Fixpoint executeText (n : Node) (d : gmap string Value) : Res Node :=
  match n with
  | Text content =>
      if String.eqb (TrimSpace content) "" then Ok n
      else
        match mustacheRender content d with
        | Some rendered => Ok (Text rendered)
        | None => Panic (Foreign "mustache.Render")
        end
  | Element e =>
      let fix each (l : list Node) : Res (list Node) :=
        match l with
        | [] => Ok []
        | child :: l' =>
            match executeText child d with
            | Ok child' =>
                match each l' with
                | Ok l'' => Ok (child' :: l'')
                | Panic err => Panic err
                | OutOfFuel => OutOfFuel
                end
            | Panic err => Panic err
            | OutOfFuel => OutOfFuel
            end
        end in
      match each (Children e) with
      | Ok kids => Ok (Element (mkElem (Data e) (Attr e) kids))
      | Panic err => Panic err
      | OutOfFuel => OutOfFuel
      end
  | Comment _ => Ok n
  end.

(** [parseNode] *)
Definition parseNode (tmpl : string) : Res Node :=
  match ParseFragment tmpl with
  | Some nodes => Ok (Element (mkElem "" [] nodes))
  | None => Panic (Foreign "html.ParseFragment")
  end.

(** [execute], for the template text [tmpl] of the component; [w]
    holds the counter of the template, the data to render and the
    listeners of the component.  The result is the node, with the data
    and listeners as the execution leaves them. *)
Definition execute (fuel : nat) (tmpl : string) (w : World) : Res (Node * World) :=
  match parseNode tmpl with
  | Ok n =>
      match executeElement fuel n (mkPlace false [] []) w with
      | Ok (n', _, w', _) =>
          match executeText n' (data w') with
          | Ok n'' => Ok (n'', w')
          | Panic err => Panic err
          | OutOfFuel => OutOfFuel
          end
      | Panic err => Panic err
      | OutOfFuel => OutOfFuel
      end
  | Panic err => Panic err
  | OutOfFuel => OutOfFuel
  end.

End Engine.


(** ** Words for the statements about texts *)

(** Whether [sub] occurs in [s]. *)
Fixpoint Contains (s sub : string) : bool :=
  HasPrefix s sub ||
  match s with
  | EmptyString => false
  | String _ s' => Contains s' sub
  end.

(** ** The order of execution, as the specification states it *)

(** The place of an attribute key in the order of execution that the
    specification fixes: [for], [if], [model], [on], [bind], [html],
    then the keys that are no directives; a key with the directive
    prefix and none of the six has no place. *)
Definition rank (k : string) : nat :=
  if HasPrefix k vFor then 0
  else if HasPrefix k vIf then 1
  else if HasPrefix k vModel then 2
  else if HasPrefix k vOn then 3
  else if HasPrefix k vBind then 4
  else if HasPrefix k vHtml then 5
  else if HasPrefix k v then 7
  else 6.

Definition ranked (r : nat) (a : Attribute) : bool := Nat.eqb (rank (Key a)) r.

(** The places of the order that [orderAttrs] fills. *)
Definition places : list nat := [0; 1; 2; 3; 4; 5; 6]%nat.

Definition place_of (a : Attribute) : nat := rank (Key a).

Section Blocks.

Context {A : Type} (f : A -> nat).

Definition inClass (r : nat) (a : A) : bool := Nat.eqb (f a) r.

(** The elements of [l], class after class in the order of [rs], in
    each class as they stand in [l]. *)
Definition blocks (rs : list nat) (l : list A) : list A :=
  flat_map (fun r => List.filter (inClass r) l) rs.

End Blocks.

(** The authored list of the specification's example. *)
Definition authored : list Attribute :=
  [ mkAttr "v-bind:x" "X"; mkAttr "v-if" "Show"; mkAttr "v-on:click" "Go";
    mkAttr "v-for" "Item in Items"; mkAttr "v-html" "Raw"; mkAttr "v-model" "Name" ].


(** ** Words for the statements about the handlers *)

(** The node once [RemoveChild] has taken it from its parent. *)
Definition detached {host : Host} (m : Mem) : Mem :=
  withPlace (mkPlace false (prevs (place m)) (nexts (place m))) m.

(** The node once [executeAttrModel] has marked it: the attribute
    [input] with the field name is appended, and [callback.vModel]
    listens to [input]. *)
Definition marked {host : Host} (field : string) (m : Mem) : Mem :=
  withWorld (mkWorld (id (world m)) (data (world m))
                     (listeners (world m) ++ [("input", HModel)]))
            (withAttr (Attr (node m) ++ [mkAttr "input" field]) m).

(** The kind of a directive: its key up to the first colon. *)
Definition kind (key : string) : string := default "" (Split key ":" !! 0%nat).

(** The six kinds that [executeAttr] knows. *)
Definition kinds : list string := [vBind; vFor; vHtml; vIf; vModel; vOn].

(** Two loops of one execution, for the statement about their keys:
    three elements under the loop variable [a1], ten under [a]. *)
Definition firstSlice : list Value := [VString "x0"; VString "x1"; VString "x2"].
Definition secondSlice : list Value := map VInt [0; 1; 2; 3; 4; 5; 6; 7; 8; 9].
Definition twoSlices : gmap string Value :=
  {[ "Xs" := VSlice firstSlice; "Ys" := VSlice secondSlice ]}.

(** ** Words for the statements about trees *)

(** No text of the tree holds the opening of a placeholder. *)
Fixpoint rendered (n : Node) : bool :=
  match n with
  | Element e => forallb rendered (Children e)
  | Text content => negb (Contains content "{{")
  | Comment _ => true
  end.

(** An attribute that is no directive. *)
Definition plain (a : Attribute) : bool := negb (HasPrefix (Key a) v).

(** No element of the tree carries an attribute whose key starts with
    the directive prefix. *)
Fixpoint clean (n : Node) : bool :=
  match n with
  | Element e => forallb plain (Attr e) && forallb clean (Children e)
  | Text _ => true
  | Comment _ => true
  end.

(** Induction on a node, with the property at hand for its children. *)
Fixpoint Node_induction (P : Node -> Prop)
    (HE : forall d a kids, Forall P kids -> P (Element (mkElem d a kids)))
    (HT : forall content, P (Text content))
    (HC : forall content, P (Comment content))
    (n : Node) {struct n} : P n :=
  match n with
  | Element (mkElem d a kids) =>
      HE d a kids
         ((fix all (l : list Node) : Forall P l :=
             match l with
             | [] => @List.Forall_nil Node P
             | x :: l' => @List.Forall_cons Node P x l' (Node_induction P HE HT HC x) (all l')
             end) kids)
  | Text content => HT content
  | Comment content => HC content
  end.

Section TextWords.

Context {host : Host}.

(** The text pass on the children of an element, one after the other. *)
Fixpoint executeTexts (l : list Node) (d : gmap string Value) : Res (list Node) :=
  match l with
  | [] => Ok []
  | child :: l' =>
      match executeText child d with
      | Ok child' =>
          match executeTexts l' d with
          | Ok l'' => Ok (child' :: l'')
          | Panic err => Panic err
          | OutOfFuel => OutOfFuel
          end
      | Panic err => Panic err
      | OutOfFuel => OutOfFuel
      end
  end.

(** What the engine relies on in the mustache library: a text without
    the opening of a placeholder is rendered as it is. *)
Definition keepsPlainText : Prop :=
  forall (content : string) (d : gmap string Value),
    Contains content "{{" = false -> mustacheRender content d = Some content.

End TextWords.

(** What the invariant of the output asks of the subcomponents: the
    tree that the execution of a subcomponent returns is clean. *)
Definition cleanSubs {host : Host} : Prop :=
  forall (s : Comp) (subNode : Node), executeSub s = Ok subNode -> clean subNode = true.

(** The two effects that the dispatch of a directive can have on the
    node: either its place is as before and attributes are added after
    those it had, or it has left its parent, whose children are the
    former previous siblings and then the chain that starts at the
    returned pointer. *)
Definition effect {host : Host} (m m' : Mem) (r : Ptr * bool) : Prop :=
  if snd r
  then attached (place m) = true /\ attached (place m') = false
       /\ (prevs (place m') ++ nexts (place m') = prevs (place m) ++ fst r)%list
  else place m' = place m
       /\ exists extra, Attr (node m') = (Attr (node m) ++ extra)%list.

(** What a call of [executeElement] on a node at the place [p] leaves
    behind.  For a node with a parent: the children of the parent are
    those that came before the node, then clean nodes, then the chain
    at the returned pointer.  For a node without parent: the node is
    clean. *)
Definition visited (p : Place) (x : Visit) : Prop :=
  let '(n', p', _, next) := x in
  if attached p
  then exists done : list Node,
         siblings n' p' = (prevs p ++ done ++ next)%list
         /\ List.Forall (fun n => clean n = true) done
  else clean n' = true.

(** ** Words for the statements about the directive at hand *)

Section Reaches.

Context {host : Host}.

(** The loop over the attributes, entered at index [i] on the memory
    [m], comes to dispatch [attr] on the memory [m1]: [attr] is the
    directive at [i], or the loop gets there after a dispatch that
    did not modify the tree, or after an attribute that is no
    directive. *)
Fixpoint attrsReach (fuel i : nat) (m : Mem) (attr : Attribute) (m1 : Mem) : Prop :=
  match fuel with
  | O => False
  | S fuel' =>
      match Attr (node m) !! i with
      | None => False
      | Some a =>
          if HasPrefix (Key a) v then
            let m2 := withAttr (deleteAttr (Attr (node m)) i) m in
            (a = attr /\ m2 = m1)
            \/ exists m' next, executeAttr a m2 = (m', Ok (next, false))
                               /\ attrsReach fuel' i m' attr m1
          else attrsReach fuel' (S i) m attr m1
      end
  end.

(** The loop over the children comes to dispatch [attr] on [m1]: in
    the execution of the child at the pointer, or after that
    execution has returned, further on. *)
Fixpoint childrenReach (reach : Node -> Place -> World -> Prop)
    (exec : Node -> Place -> World -> Res Visit)
    (fuel : nat) (kids : list Node) (child : Ptr) (w : World) : Prop :=
  match fuel with
  | O => False
  | S fuel' =>
      match child with
      | [] => False
      | c :: rest =>
          let p := mkPlace true (before kids child) rest in
          reach c p w
          \/ exists c' p' w' next,
               exec c p w = Ok (c', p', w', next)
               /\ childrenReach reach exec fuel' (siblings c' p') next w'
      end
  end.

(** The execution of the node [n] comes to dispatch the directive
    [attr] on the memory [m1]: in the loop over the attributes of [n],
    or, when that loop has ended and [n] is no subcomponent, in the
    execution of its children. *)
Fixpoint reaches (fuel : nat) (n : Node) (p : Place) (w : World)
    (attr : Attribute) (m1 : Mem) : Prop :=
  match fuel with
  | O => False
  | S fuel' =>
      match n with
      | Element e =>
          let m0 := mkMem (mkElem (Data e) (orderAttrs (Attr e)) (Children e))
                          p (newSub (Data e)) w in
          attrsReach fuel' 0 m0 attr m1
          \/ exists m, executeAttrs fuel' 0 m0 = (m, Ok None)
                       /\ sub m = None
                       /\ childrenReach (fun c q x => reaches fuel' c q x attr m1)
                            (executeElement fuel') fuel'
                            (Children (node m)) (Children (node m)) (world m)
      | _ => False
      end
  end.

(** The execution of the template [tmpl] comes to dispatch [attr] on
    [m1]. *)
Definition dispatches (fuel : nat) (tmpl : string) (w : World)
    (attr : Attribute) (m1 : Mem) : Prop :=
  exists nodes, ParseFragment tmpl = Some nodes
                /\ reaches fuel (Element (mkElem "" [] nodes))
                           (mkPlace false [] []) w attr m1.

End Reaches.

(** ** A small host, for running the engine on examples *)

Module Toy.

(** Attributes and nodes written out as markup. *)
Definition renderAttr (a : Attribute) : string :=
  " " +:+ Key a +:+ "='" +:+ Val a +:+ "'".

Fixpoint render (n : Node) : string :=
  match n with
  | Element e =>
      "<" +:+ Data e +:+ String.concat "" (map renderAttr (Attr e)) +:+ ">"
      +:+ String.concat "" (map render (Children e))
      +:+ "</" +:+ Data e +:+ ">"
  | Text content => content
  | Comment content => "<!--" +:+ content +:+ "-->"
  end.

(** Replacement of every occurrence of a non-empty [old]. *)
Definition replace (s old new : string) : string :=
  String.concat new (Split s old).

Definition li (attrs : list Attribute) (text : string) : Node :=
  Element (mkElem "li" attrs [Text text]).

(** The markup that the toy parser knows, with its nodes. *)
Definition fragments : list (string * list Node) :=
  [ ("", []);
    ("<p v-foo='1' class='big' v-if='Show' v-on:click='Go'>hi</p><!--end-->",
     [ Element (mkElem "p"
         [mkAttr "v-foo" "1"; mkAttr "class" "big"; mkAttr "v-if" "Show";
          mkAttr "v-on:click" "Go"] [Text "hi"]);
       Comment "end" ]);
    ("<li v-for='Todo in Todos'>{{ Todo }}</li>",
     [ li [mkAttr "v-for" "Todo in Todos"] "{{ Todo }}" ]);
    ("<li>{{ Todo0 }}</li><li>{{ Todo1 }}</li>",
     [ li [] "{{ Todo0 }}"; li [] "{{ Todo1 }}" ]);
    ("<li v-for='Todo in None'>x</li>",
     [ li [mkAttr "v-for" "Todo in None"] "x" ]);
    ("<i v-once='1'>x</i>",
     [ Element (mkElem "i" [mkAttr "v-once" "1"] [Text "x"]) ]);
    ("<b v-bind:title='Missing'>x</b>",
     [ Element (mkElem "b" [mkAttr "v-bind:title" "Missing"] [Text "x"]) ]) ].

Fixpoint find (s : string) (l : list (string * list Node)) : option (list Node) :=
  match l with
  | [] => None
  | (k, nodes) :: l' => if String.eqb k s then Some nodes else find s l'
  end.

(** A text that is one placeholder, ["{{ key }}"], is rendered as the
    value of the key; a text without placeholder is rendered as it is;
    the toy engine knows no other text. *)
Definition mustache (s : string) (d : gmap string Value) : option string :=
  if Contains s "{{" then
    if HasPrefix s "{{ " then
      match Split (dropBytes 3 s) " }}" with
      | [key; EmptyString] => fmtV <$> d !! key
      | _ => None
      end
    else None
  else Some s.

(** A host without subcomponents.  Its parser knows [fragments] and
    takes every other text for one text node. *)
#[export] Instance host : Host := {|
  Comp := Empty_set;
  newSub := fun _ => None;
  hasProp := fun _ _ => false;
  setProp := fun c _ _ => c;
  executeSub := fun _ => Panic NilDereference;
  ParseFragment := fun s =>
    match find s fragments with
    | Some nodes => Some nodes
    | None => Some [Text s]
    end;
  Render := fun n => Some (render n);
  mustacheRender := mustache;
  Replace := replace;
  Title := fun s => s
|}.

(** A context and a paragraph between three text nodes. *)
Definition context : gmap string Value :=
  {[ "Show" := VBool true; "Hide" := VBool false; "Name" := VString "Ann";
     "Todos" := VSlice [VString "learn"; VString "build"];
     "None" := VSlice [] ]}.

Definition mem (attrs : list Attribute) : Mem :=
  mkMem (mkElem "p" attrs [Text "hi"])
        (mkPlace true [Text "a"] [Text "b"; Text "c"])
        None (mkWorld 0 context []).

(** The markup and the elements of the examples. *)
Definition bound : string := "<b v-bind:title='Missing'>x</b>".
Definition boundElem : Elem Node :=
  mkElem "b" [mkAttr "v-bind:title" "Missing"] [Text "x"].
Definition once : Elem Node := mkElem "i" [mkAttr "v-once" "1"] [Text "x"].
Definition para : string :=
  "<p v-foo='1' class='big' v-if='Show' v-on:click='Go'>hi</p><!--end-->".
Definition paraElem : Elem Node :=
  mkElem "p" [mkAttr "v-foo" "1"; mkAttr "class" "big"; mkAttr "v-if" "Show";
              mkAttr "v-on:click" "Go"] [Text "hi"].
Definition empty : string := "<li v-for='Todo in None'>x</li>".
Definition start : World := mkWorld 0 context [].
Definition blank : World := mkWorld 0 ∅ [].

End Toy.

(** ** Words for the further statements *)

(** The part of a directive: the piece of its key between the first
    colon and the second, empty when the key has no colon. *)
Definition part (key : string) : string := default "" (Split key ":" !! 1%nat).

(** The node after a dispatch that did not modify the tree: it hangs
    where it did, under its tag name, and has the attributes and the
    children it had, with more after them at most. *)
Definition kept {host : Host} (m m' : Mem) : Prop :=
  place m' = place m
  /\ Data (node m') = Data (node m)
  /\ (exists extra, Attr (node m') = (Attr (node m) ++ extra)%list)
  /\ (exists more, Children (node m') = (Children (node m) ++ more)%list).

(** The key that the loop of [v-for] makes for the element at index
    [k], with the counter at [i0] when the loop starts. *)
Definition loopKey (name : string) (i0 : Z) (k : nat) : string :=
  name +:+ pretty (i0 + Z.of_nat k).

(** The copies of the rendered node that the loop writes to the
    buffer, from index [k] on. *)
Fixpoint loopCopies {host : Host} (name elem : string) (i0 : Z) (k n : nat) : string :=
  match n with
  | O => ""
  | S n' => Replace elem name (loopKey name i0 k) +:+ loopCopies name elem i0 (S k) n'
  end.

(** A bound on the fuel that the execution of a tree without
    directives takes. *)
Fixpoint weight (n : Node) : nat :=
  match n with
  | Element e =>
      S (S (length (Attr e) + length (Children e)
            + list_sum (map weight (Children e))))
  | Text _ => 1
  | Comment _ => 1
  end.

(** A tree without directives and without subcomponents. *)
Fixpoint inert {host : Host} (n : Node) : bool :=
  match n with
  | Element e =>
      forallb plain (Attr e)
      && match newSub (Data e) with None => true | Some _ => false end
      && forallb inert (Children e)
  | Text _ => true
  | Comment _ => true
  end.


(** What the execution may do to what it shares: the fields of the
    context stay (their values may change), and so do the listeners,
    in their order, with more after them at most. *)
Definition grows (w w' : World) : Prop :=
  (forall key, is_Some (data w !! key) -> is_Some (data w' !! key))
  /\ (exists more, listeners w' = (listeners w ++ more)%list).

(** A computation that does no more than that, whatever its outcome. *)
Definition Grows {host : Host} {A : Type} (c : M A) : Prop :=
  forall m, grows (world m) (world (fst (c m))).

(** A node without the contents of its text nodes. *)
Fixpoint shape (n : Node) : Node :=
  match n with
  | Element e => Element (mkElem (Data e) (Attr e) (map shape (Children e)))
  | Text _ => Text ""
  | Comment content => Comment content
  end.

(** The text nodes of a tree that are not all white space are all
    rendered by the mustache library with the data [d]. *)
Fixpoint renders {host : Host} (d : gmap string Value) (n : Node) : bool :=
  match n with
  | Element e => forallb (renders d) (Children e)
  | Text content =>
      String.eqb (TrimSpace content) ""
      || match mustacheRender content d with Some _ => true | None => false end
  | Comment _ => true
  end.

(** ** Words for the statement about the end of the loop over the
    attributes *)

(** What an attribute with the key [key] counts for in the bound on
    the turns of the loop over the attributes: one when it is no
    directive; three and the length of its key when it is one, which
    is more than the attributes count for that its dispatch appends. *)
Definition toll (key : string) : nat :=
  if HasPrefix key v then (3 + String.length key)%nat else 1%nat.

Definition tolls (l : list Attribute) : nat :=
  list_sum (map (fun a => toll (Key a)) l).

(** A computation that needs no fuel. *)
Definition Ends {host : Host} {A : Type} (c : M A) : Prop :=
  forall m, snd (c m) <> OutOfFuel.

(** ** A second small host, with a subcomponent *)

Module Kit.

(** The markup that the parser of this host knows, with its nodes. *)
Definition fragments : list (string * list Node) :=
  [ ("<p class='big'>hi</p><!--end-->",
     [ Element (mkElem "p" [mkAttr "class" "big"] [Text "hi"]);
       Comment "end" ]);
    ("<todo class='x'></todo>",
     [ Element (mkElem "todo" [mkAttr "class" "x"] []) ]);
    ("<todo v-bind:title='Name' v-foo='1'></todo><p v-on:click='Go' id='a'>hi</p>",
     [ Element (mkElem "todo" [mkAttr "v-bind:title" "Name"; mkAttr "v-foo" "1"] []);
       Element (mkElem "p" [mkAttr "v-on:click" "Go"; mkAttr "id" "a"]
                       [Text "hi"]) ]) ].

(** A host with one subcomponent, [todo], that has one prop, [title].
    A component is the list of the props that were set on it.  The
    parser knows [fragments], refuses every other text that opens a
    tag, and takes the rest for one text node; the renderer refuses
    the element [svg]. *)
#[export] Instance host : Host := {|
  Comp := list (string * Value);
  newSub := fun tag => if String.eqb tag "todo" then Some [] else None;
  hasProp := fun s prop =>
    match s with
    | Some _ => String.eqb prop "title"
    | None => false
    end;
  setProp := fun c prop field => (prop, field) :: c;
  executeSub := fun _ => Ok (Element (mkElem "" [] [Text "one"; Text "two"]));
  ParseFragment := fun s =>
    match Toy.find s fragments with
    | Some nodes => Some nodes
    | None => if HasPrefix s "<" then None else Some [Text s]
    end;
  Render := fun n =>
    match n with
    | Element e => if String.eqb (Data e) "svg" then None else Some (Toy.render n)
    | _ => Some (Toy.render n)
    end;
  mustacheRender := Toy.mustache;
  Replace := Toy.replace;
  Title := fun s => s
|}.

(** A context with markup that the parser refuses. *)
Definition context : gmap string Value :=
  {[ "Name" := VString "Ann"; "Broken" := VString "<b"; "Done" := VBool true;
     "Todos" := VSlice [VString "learn"; VString "build"] ]}.

Definition start : World := mkWorld 0 context [].

(** A [todo] element in the tree, with its component. *)
Definition todo : Mem :=
  mkMem (mkElem "todo" [] []) (mkPlace true [Text "a"] [Text "b"]) (Some []) start.

(** Markup with directives, a subcomponent and an attribute that the
    orderer discards. *)
Definition page : string :=
  "<todo v-bind:title='Name' v-foo='1'></todo><p v-on:click='Go' id='a'>hi</p>".

(** An element that the renderer refuses. *)
Definition svg : Mem :=
  mkMem (mkElem "svg" [] []) (mkPlace true [] []) None start.

End Kit.
(** * Properties *)

Example split_colon : Split "v-bind:color" ":" = ["v-bind"; "color"].
Proof. reflexivity. Qed.
Example split_in : Split "Todo in Todos" "in" = ["Todo "; " Todos"].
Proof. reflexivity. Qed.
Example trim1 : TrimSpace "  Todo  " = "Todo".
Proof. reflexivity. Qed.
Example trim2 : TrimSpace (bytes [32; 194; 160; 65; 226; 128; 128; 10]%N) = "A".
Proof. reflexivity. Qed.
Example order1 :
  map Key (orderAttrs [mkAttr "v-bind:x" "a"; mkAttr "v-if" "b"; mkAttr "class" "k"; mkAttr "v-on:click" "c";
               mkAttr "v-for" "d"; mkAttr "v-html" "e"; mkAttr "v-foo" "z"; mkAttr "v-model" "f"])
  = ["v-for"; "v-if"; "v-model"; "v-on:click"; "v-bind:x"; "v-html"; "class"].
Proof. reflexivity. Qed.


(** ** Prefixes *)

Lemma HasPrefix_spec (s pre : string) :
  HasPrefix s pre = true <-> exists r, s = pre +:+ r.
Proof.
  revert s. induction pre as [|a pre IH]; intros s; simpl.
  - split; [intros _; exists s; reflexivity | reflexivity].
  - destruct s as [|b s].
    + split; [discriminate | intros [r Hr]; discriminate].
    + simpl. destruct (Ascii.eqb_spec a b) as [->|Hne].
      * rewrite IH. split; intros [r Hr]; exists r.
        -- simpl. now rewrite Hr.
        -- simpl in Hr. now inversion Hr.
      * split; [discriminate | intros [r Hr]; simpl in Hr; inversion Hr; congruence].
Qed.

Lemma HasPrefix_app (pre r : string) : HasPrefix (pre +:+ r) pre = true.
Proof. apply HasPrefix_spec. now exists r. Qed.

(** ** Texts and their pieces *)

Lemma append_String (a : ascii) (s t : string) :
  String a s +:+ t = String a (s +:+ t).
Proof. reflexivity. Qed.

Lemma append_one (cur : string) (c : ascii) (key : string) :
  (cur +:+ String c "") +:+ key = cur +:+ String c key.
Proof.
  induction cur as [|a cur IH]; [reflexivity|].
  rewrite !append_String. now f_equal.
Qed.

Lemma append_empty (cur : string) : cur +:+ "" = cur.
Proof.
  induction cur as [|a cur IH]; [reflexivity|].
  rewrite append_String. now f_equal.
Qed.

Lemma HasPrefix_trans (s p q : string) :
  HasPrefix s p = true -> HasPrefix p q = true -> HasPrefix s q = true.
Proof.
  intros Hp Hq. apply HasPrefix_spec in Hp, Hq.
  destruct Hp as [r ->], Hq as [r' ->].
  apply HasPrefix_spec. exists (r' +:+ r).
  clear. induction q as [|a q IH]; [reflexivity|].
  rewrite !append_String. now f_equal.
Qed.

Lemma HasPrefix_colon (c : ascii) (s : string) :
  HasPrefix (String c s) ":" = Ascii.eqb ":" c.
Proof. cbn [HasPrefix]. now destruct (Ascii.eqb ":" c). Qed.

Lemma HasPrefix_in (c : ascii) (s : string) :
  HasPrefix (String c s) "in"
  = Ascii.eqb "i" c && match s with
                       | EmptyString => false
                       | String b _ => Ascii.eqb "n" b
                       end.
Proof.
  cbn [HasPrefix]. destruct (Ascii.eqb "i" c); [|reflexivity].
  destruct s as [|b s]; [reflexivity|]. now destruct (Ascii.eqb "n" b).
Qed.

Lemma splitFrom_step (sep cur : string) (c : ascii) (s : string) :
  splitFrom sep 0 cur (String c s)
  = if HasPrefix (String c s) sep
    then cur :: splitFrom sep (String.length sep - 1) "" s
    else splitFrom sep 0 (cur +:+ String c "") s.
Proof. reflexivity. Qed.

Lemma splitFrom_colon (key cur rest : string) :
  Contains key ":" = false ->
  splitFrom ":" 0 cur (key +:+ ":" +:+ rest)
  = (cur +:+ key) :: splitFrom ":" 0 "" rest.
Proof.
  revert cur. induction key as [|c key IH]; intros cur Hc.
  - change ("" +:+ ":" +:+ rest) with (String ":" rest).
    cbn [splitFrom]. rewrite HasPrefix_colon. simpl. now rewrite append_empty.
  - cbn [Contains] in Hc. rewrite HasPrefix_colon in Hc.
    apply orb_false_iff in Hc. destruct Hc as [Hc Hk].
    rewrite append_String. cbn [splitFrom].
    rewrite HasPrefix_colon, Hc, IH by assumption.
    now rewrite append_one.
Qed.

(** The first piece that [Split] cuts off is a prefix of the text. *)
Lemma splitFrom_head (sep cur s : string) :
  exists pre rest, splitFrom sep 0 cur s = (cur +:+ pre) :: rest
                   /\ HasPrefix s pre = true.
Proof.
  revert cur. induction s as [|c s IH]; intros cur.
  - exists "", []. simpl. now rewrite append_empty.
  - cbn [splitFrom]. destruct (HasPrefix (String c s) sep).
    + eexists "", _. rewrite append_empty. split; reflexivity.
    + destruct (IH (cur +:+ String c "")) as [pre [rest [E Hp]]].
      exists (String c pre), rest. rewrite E, append_one. split; [reflexivity|].
      cbn [HasPrefix]. now rewrite Ascii.eqb_refl.
Qed.

Lemma splitFrom_in_none (cur s : string) :
  Contains s "in" = false -> splitFrom "in" 0 cur s = [cur +:+ s].
Proof.
  revert cur. induction s as [|c s IH]; intros cur Hc.
  - simpl. now rewrite append_empty.
  - cbn [Contains] in Hc. apply orb_false_iff in Hc. destruct Hc as [Hc Hs].
    cbn [splitFrom]. rewrite Hc, IH by exact Hs. now rewrite append_one.
Qed.

Lemma splitFrom_in (var cur field : string) :
  Contains var "in" = false ->
  Contains field "in" = false ->
  splitFrom "in" 0 cur (var +:+ " in " +:+ field)
  = [cur +:+ var +:+ " "; " " +:+ field].
Proof.
  intros Hv Hf. revert cur Hv. induction var as [|c var IH]; intros cur Hv.
  - change ("" +:+ " in " +:+ field)
      with (String " " (String "i" (String "n" (String " " field)))).
    rewrite splitFrom_step, HasPrefix_in. cbn [Ascii.eqb Bool.eqb andb].
    rewrite splitFrom_step, HasPrefix_in. cbn [Ascii.eqb Bool.eqb andb].
    change (splitFrom "in" (String.length "in" - 1) "" (String "n" (String " " field)))
      with (splitFrom "in" 0 "" (String " " field)).
    rewrite splitFrom_in_none.
    + reflexivity.
    + cbn [Contains]. rewrite HasPrefix_in, Hf. reflexivity.
  - cbn [Contains] in Hv. apply orb_false_iff in Hv. destruct Hv as [Hc Hv].
    rewrite append_String, splitFrom_step.
    assert (E : HasPrefix (String c (var +:+ " in " +:+ field)) "in" = false).
    { rewrite HasPrefix_in in *. destruct (Ascii.eqb "i" c); [|reflexivity].
      destruct var as [|b var]; [reflexivity|exact Hc]. }
    rewrite E, IH by exact Hv.
    rewrite append_one. reflexivity.
Qed.

(** Where the keys are distinct: under one loop variable, two values
    of the counter give two keys. *)
Lemma key_same_name_inj (name : string) (i j : Z) :
  name +:+ pretty i = name +:+ pretty j -> i = j.
Proof.
  intros H. apply (inj pretty).
  induction name as [|c name IH]; [exact H|].
  rewrite !append_String in H. injection H as H. now apply IH.
Qed.

(** ** The places of the keys *)

Ltac prefix_cases k :=
  repeat match goal with
  | |- context [HasPrefix k ?p] =>
      let H := fresh "P" in destruct (HasPrefix k p) eqn:H
  end;
  repeat match goal with
  | H : HasPrefix k _ = true |- _ =>
      apply HasPrefix_spec in H; destruct H as [? H]; cbv [String.append] in H
  end;
  try reflexivity; try congruence.

Lemma ranked_prefix (a : Attribute) :
  HasPrefix (Key a) vFor = ranked 0 a /\
  HasPrefix (Key a) vIf = ranked 1 a /\
  HasPrefix (Key a) vModel = ranked 2 a /\
  HasPrefix (Key a) vOn = ranked 3 a /\
  HasPrefix (Key a) vBind = ranked 4 a /\
  HasPrefix (Key a) vHtml = ranked 5 a /\
  negb (HasPrefix (Key a) v) = ranked 6 a.
Proof.
  unfold ranked, rank, vFor, vIf, vModel, vOn, vBind, vHtml, v.
  generalize (Key a) as k. intros k.
  repeat split; prefix_cases k.
  all: try subst k; cbv [String.append] in *; try congruence.
  all: simpl in *; congruence.
Qed.

(** ** Lists cut into classes *)

Section BlocksFacts.

Context {A : Type} (f : A -> nat).

Local Abbreviation inClass := (inClass f).
Local Abbreviation blocks := (blocks f).

Lemma filter_class_class (r r' : nat) (l : list A) :
  List.filter (inClass r) (List.filter (inClass r') l)
  = if Nat.eqb r r' then List.filter (inClass r) l else [].
Proof.
  induction l as [|a l IH]; simpl.
  - now destruct (Nat.eqb r r').
  - destruct (inClass r' a) eqn:E1; simpl.
    + destruct (inClass r a) eqn:E2; rewrite IH; unfold inClass in E1, E2;
        apply Nat.eqb_eq in E1;
        [apply Nat.eqb_eq in E2 | apply Nat.eqb_neq in E2];
        destruct (Nat.eqb_spec r r'); try reflexivity; congruence.
    + rewrite IH. destruct (Nat.eqb_spec r r') as [->|N]; [|reflexivity].
      now rewrite E1.
Qed.

Lemma blocks_class (rs : list nat) (r : nat) (l : list A) :
  List.NoDup rs -> In r rs ->
  List.filter (inClass r) (blocks rs l) = List.filter (inClass r) l.
Proof.
  unfold blocks. induction 1 as [|r0 rs Hnot Hnd IH]; simpl; [tauto|].
  intros Hin. rewrite List.filter_app, filter_class_class.
  destruct (Nat.eqb_spec r r0) as [->|Hne].
  - assert (E : List.filter (inClass r0)
                  (flat_map (fun r => List.filter (inClass r) l) rs) = []).
    { clear IH Hin Hnd. induction rs as [|r1 rs IH]; simpl; [reflexivity|].
      rewrite List.filter_app, filter_class_class.
      destruct (Nat.eqb_spec r0 r1) as [->|_].
      - exfalso. apply Hnot. now left.
      - apply IH. intros H. apply Hnot. now right. }
    rewrite E. apply app_nil_r.
  - destruct Hin as [->|Hin]; [congruence|]. now apply IH.
Qed.

Lemma filter_either (p q : A -> bool) (l : list A) :
  (forall a, p a = true -> q a = false) ->
  Permutation (List.filter p l ++ List.filter q l)
              (List.filter (fun a => p a || q a) l).
Proof.
  intros Hpq. induction l as [|a l IH]; simpl; [constructor|].
  destruct (p a) eqn:Ep; simpl.
  - rewrite (Hpq a Ep). now constructor.
  - destruct (q a); [|exact IH].
    symmetry. apply Permutation_cons_app. now symmetry.
Qed.

Lemma blocks_perm (rs : list nat) (l : list A) :
  List.NoDup rs ->
  Permutation (blocks rs l)
              (List.filter (fun a => existsb (Nat.eqb (f a)) rs) l).
Proof.
  unfold blocks. induction 1 as [|r rs Hnot Hnd IH]; simpl.
  - induction l; simpl; [constructor | assumption].
  - etransitivity; [apply Permutation_app_head, IH|].
    apply (filter_either (inClass r)). intros a Ha.
    unfold inClass in Ha. apply Nat.eqb_eq in Ha.
    apply not_true_is_false. intros Hex.
    apply existsb_exists in Hex. destruct Hex as [r' [Hin Hr']].
    apply Nat.eqb_eq in Hr'. apply Hnot.
    replace r with r' by lia. exact Hin.
Qed.

Lemma sorted_app (R : A -> A -> Prop) (l1 l2 : list A) :
  StronglySorted R l1 -> StronglySorted R l2 ->
  (forall a b, In a l1 -> In b l2 -> R a b) ->
  StronglySorted R (l1 ++ l2).
Proof.
  induction 1 as [|a l1 Hs IH Hall]; intros H2 Hcross; simpl; [assumption|].
  constructor.
  - apply IH; [assumption|]. intros x y Hx Hy. apply Hcross; [now right|assumption].
  - apply List.Forall_app. split; [assumption|].
    apply List.Forall_forall. intros y Hy. apply Hcross; [now left|assumption].
Qed.

Lemma sorted_class (r : nat) (l : list A) :
  StronglySorted (fun a b => (f a <= f b)%nat) (List.filter (inClass r) l).
Proof.
  induction l as [|a l IH]; simpl; [constructor|].
  destruct (inClass r a) eqn:E; [|exact IH].
  constructor; [exact IH|].
  apply List.Forall_forall. intros b Hb. apply filter_In in Hb.
  destruct Hb as [_ Hb]. unfold inClass in *.
  apply Nat.eqb_eq in E, Hb. lia.
Qed.

Lemma blocks_sorted (rs : list nat) (l : list A) :
  StronglySorted lt rs ->
  StronglySorted (fun a b => (f a <= f b)%nat) (blocks rs l).
Proof.
  unfold blocks. induction 1 as [|r rs Hs IH Hall]; simpl; [constructor|].
  apply sorted_app; [apply sorted_class | exact IH |].
  intros a b Ha Hb. apply filter_In in Ha. destruct Ha as [_ Ha].
  apply Nat.eqb_eq in Ha. apply in_flat_map in Hb.
  destruct Hb as [r' [Hr' Hb]]. apply filter_In in Hb. destruct Hb as [_ Hb].
  apply Nat.eqb_eq in Hb. rewrite List.Forall_forall in Hall.
  specialize (Hall r' Hr'). lia.
Qed.

End BlocksFacts.

(** ** The attribute orderer (claim C3) *)

Lemma rank_placed (k : string) :
  existsb (Nat.eqb (rank k)) places = negb (Nat.eqb (rank k) 7).
Proof.
  unfold rank.
  repeat match goal with
  | |- context [HasPrefix k ?p] => destruct (HasPrefix k p)
  end; reflexivity.
Qed.

Lemma orderAttrs_blocks (attrs : list Attribute) :
  orderAttrs attrs = blocks place_of places attrs.
Proof.
  destruct attrs as [|a0 attrs]; [reflexivity|].
  unfold orderAttrs. remember (a0 :: attrs) as l eqn:El. clear El.
  unfold blocks, places, attrOrder. cbn [flat_map].
  rewrite !app_nil_r, <- !app_assoc.
  assert (E : forall p r, (forall a, p a = ranked r a) ->
            List.filter p l = List.filter (inClass place_of r) l)
    by (intros p r Hp; apply List.filter_ext, Hp).
  repeat (f_equal; [apply E; intros a; apply (ranked_prefix a)|]).
  apply E; intros a; apply (ranked_prefix a).
Qed.

Lemma places_NoDup : List.NoDup places.
Proof. unfold places; repeat constructor; simpl; lia. Qed.

(** What [orderAttrs] keeps, up to the order. *)
Lemma orderAttrs_perm (attrs : list Attribute) :
  Permutation (orderAttrs attrs)
              (List.filter (fun a => negb (Nat.eqb (place_of a) 7)) attrs).
Proof.
  rewrite orderAttrs_blocks.
  etransitivity; [apply blocks_perm, places_NoDup|].
  erewrite List.filter_ext; [reflexivity|].
  intros a. apply rank_placed.
Qed.

(** C3, as the code has it.  [orderAttrs] returns a permutation of
    the attributes that have a place in the order, which are all
    attributes but those whose key has the prefix "v-" and none of the
    six directive prefixes: those are dropped.  The result is sorted by
    place ([for], [if], [model], [on], [bind], [html], then the
    attributes that are no directives); the attributes of one place
    stand in their original relative order; no attribute is added; and
    the authored list [bind:x, if, on:click, for, html, model] comes out
    as [for, if, model, on:click, bind:x, html]. *)
Theorem orderAttrs_sorts (attrs : list Attribute) :
  Permutation (orderAttrs attrs)
              (List.filter (fun a => negb (Nat.eqb (place_of a) 7)) attrs)
  /\ StronglySorted (fun a b => (place_of a <= place_of b)%nat) (orderAttrs attrs)
  /\ Forall (fun r => List.filter (inClass place_of r) (orderAttrs attrs)
                      = List.filter (inClass place_of r) attrs) places
  /\ incl (orderAttrs attrs) attrs
  /\ map Key (orderAttrs authored)
     = ["v-for"; "v-if"; "v-model"; "v-on:click"; "v-bind:x"; "v-html"].
Proof.
  assert (Hnd : List.NoDup places) by apply places_NoDup.
  pose proof (orderAttrs_perm attrs) as Hperm.
  split; [exact Hperm|]. split; [|split; [|split]].
  - rewrite orderAttrs_blocks. apply blocks_sorted.
    unfold places. repeat constructor; lia.
  - apply List.Forall_forall. intros r Hr.
    rewrite orderAttrs_blocks. now apply blocks_class.
  - intros a Ha. apply (Permutation_in _ Hperm) in Ha.
    now apply filter_In in Ha.
  - reflexivity.
Qed.

(** C3 as the specification words it fails: an attribute whose key
    starts with "v-" and with none of the six prefixes is removed. *)
Lemma orderAttrs_drops_unknown :
  let attrs := [mkAttr "class" "big"; mkAttr "v-foo" "1"] in
  orderAttrs attrs = [mkAttr "class" "big"]
  /\ ~ Permutation attrs (orderAttrs attrs).
Proof.
  split; [reflexivity|].
  intros H. apply Permutation_length in H. discriminate H.
Qed.

(** ** The directive handlers *)

Section Handlers.

Context {host : Host}.

Ltac run :=
  unfold executeAttrIf, executeAttrModel, executeAttrOn, executeAttrHtml,
    executeAttrBind, RemoveChild, InsertBefore, appendAttr, addEventListener,
    must, bind, get, ret, modify, panic; simpl.

Lemma executeAttr_if (field : string) (m : Mem) :
  executeAttr (mkAttr vIf field) m = executeAttrIf field m.
Proof. reflexivity. Qed.

(** C7.  [v-if] on a field that is [true] in the context leaves the
    memory as it is (the node, its attributes and children, its place
    among its siblings, the shared state) and returns (nil, false).
    On a field that is [false], for a node that has a parent, the node
    leaves the children of the parent, which keeps the others in
    order, and the dispatch returns the former next sibling and
    [true]. *)
Theorem executeAttrIf_frame (field : string) (m : Mem) :
  (data (world m) !! field = Some (VBool true) ->
     executeAttr (mkAttr vIf field) m = (m, Ok ([], false)))
  /\ (data (world m) !! field = Some (VBool false) ->
      attached (place m) = true ->
      executeAttr (mkAttr vIf field) m
        = (detached m, Ok (NextSibling (place m), true))
      /\ siblings (Element (node m)) (place m)
         = (prevs (place m) ++ Element (node m) :: NextSibling (place m))%list
      /\ siblings (Element (node (detached m))) (place (detached m))
         = (prevs (place m) ++ NextSibling (place m))%list).
Proof.
  rewrite executeAttr_if. split.
  - intros Hd. run. now rewrite Hd.
  - intros Hd Hat. run. rewrite Hd, Hat. simpl.
    unfold siblings, NextSibling, detached. simpl. now rewrite Hat.
Qed.

(** C6, as the code has it.  [v-model] first appends the attribute
    [input] (with the field name for value) and registers the handler,
    and looks the field up after that: when the field is absent or no
    string the panic is raised on a node that already carries the
    marker, with the handler registered; when the field is a string
    the attribute [value] is appended as well. *)
Theorem executeAttrModel_marks_first (field : string) (m : Mem) :
  (data (world m) !! field = None ->
     executeAttrModel field m = (marked field m, Panic (UnknownDataField field)))
  /\ (forall x, data (world m) !! field = Some x ->
        (forall val, x <> VString val) ->
        executeAttrModel field m = (marked field m, Panic NotOfTypeString))
  /\ (forall val, data (world m) !! field = Some (VString val) ->
        executeAttrModel field m
        = (withAttr (Attr (node m) ++ [mkAttr "input" field; mkAttr "value" val])
                    (marked field m), Ok tt))
  /\ Attr (node (marked field m)) = (Attr (node m) ++ [mkAttr "input" field])%list
  /\ listeners (world (marked field m))
     = (listeners (world m) ++ [("input", HModel)])%list.
Proof.
  repeat split.
  - intros Hd. run. now rewrite Hd.
  - intros x Hd Hx. run. rewrite Hd.
    destruct x; try reflexivity. now destruct (Hx s).
  - intros val Hd. run. rewrite Hd. unfold withAttr, marked; simpl.
    now rewrite <- app_assoc.
Qed.

(** The dispatch of a directive of an unknown kind. *)
Lemma executeAttr_unknown (attr : Attribute) (m : Mem) :
  ~ In (kind (Key attr)) kinds ->
  executeAttr attr m = (m, Panic (UnknownAttribute (kind (Key attr)))).
Proof.
  intros Hk. unfold executeAttr.
  change (default "" (Split (Key attr) ":" !! 0%nat)) with (kind (Key attr)).
  repeat match goal with
  | |- context [String.eqb ?a ?b] =>
      destruct (String.eqb_spec a b) as [E|_];
      [exfalso; apply Hk; rewrite E; unfold kinds; simpl; tauto|]
  end.
  reflexivity.
Qed.

Lemma kind_colon (key rest : string) :
  Contains key ":" = false -> kind (key +:+ ":" +:+ rest) = key.
Proof.
  intros Hc. unfold kind, Split. now rewrite splitFrom_colon.
Qed.

Lemma executeAttr_bind (attr : Attribute) (m : Mem) :
  kind (Key attr) = vBind ->
  executeAttr attr m
  = bind (executeAttrBind (default "" (Split (Key attr) ":" !! 1%nat)) (Val attr))
         (fun _ => ret ([], false)) m.
Proof.
  intros Hk. unfold executeAttr.
  change (default "" (Split (Key attr) ":" !! 0%nat)) with (kind (Key attr)).
  now rewrite Hk.
Qed.

(** The dispatch of the three directives that panic on an absent field. *)
Lemma executeAttr_absent (field part : string) (m : Mem) :
  data (world m) !! field = None ->
  executeAttr (mkAttr (vBind +:+ ":" +:+ part) field) m
    = (m, Panic (UnknownDataField field))
  /\ executeAttr (mkAttr vHtml field) m = (m, Panic (UnknownDataField field))
  /\ executeAttr (mkAttr vModel field) m
     = (marked field m, Panic (UnknownDataField field)).
Proof.
  intros Hd. repeat split.
  - rewrite executeAttr_bind by (apply kind_colon; reflexivity).
    run. now rewrite Hd.
  - unfold executeAttr. simpl. run. now rewrite Hd.
  - unfold executeAttr. simpl. run. now rewrite Hd.
Qed.

(** [v-if] on an absent field: no panic, the node is removed. *)
Lemma executeAttrIf_absent (field : string) (m : Mem) :
  data (world m) !! field = None ->
  attached (place m) = true ->
  executeAttr (mkAttr vIf field) m = (detached m, Ok (nexts (place m), true)).
Proof.
  intros Hd Hat. rewrite executeAttr_if. run.
  rewrite Hd, Hat. unfold NextSibling. now rewrite Hat.
Qed.

Lemma withPlace_same (m : Mem) :
  withPlace (mkPlace (attached (place m)) (prevs (place m)) (nexts (place m))) m = m.
Proof. destruct m as [n [a p x] s w]. reflexivity. Qed.

Lemma forEach_InsertBefore (nodes : list Node) (m : Mem) :
  attached (place m) = true ->
  forEach nodes InsertBefore m
  = (withPlace (mkPlace true (prevs (place m) ++ nodes) (nexts (place m))) m, Ok tt).
Proof.
  revert m. induction nodes as [|n nodes IH]; intros m Hat.
  - simpl. unfold ret. rewrite app_nil_r, <- Hat. now rewrite withPlace_same.
  - cbn [forEach]. unfold bind at 1. unfold InsertBefore at 1.
    unfold bind at 1, get, modify. rewrite Hat. rewrite IH by reflexivity.
    simpl. unfold withPlace. simpl. now rewrite <- app_assoc.
Qed.

(** The loop of [v-for] touches the counter and the context only. *)
Lemma forLoop_world (name elem : string) (values : list Value) (buf : string)
    (m : Mem) :
  exists w' buf', forLoop name elem values buf m = (withWorld w' m, Ok buf').
Proof.
  revert buf m. induction values as [|x values IH]; intros buf m.
  - exists (world m), buf. destruct m. reflexivity.
  - cbn [forLoop]. unfold bind at 1, get. unfold bind at 1, modify.
    match goal with |- context [forLoop _ _ _ ?b ?m'] =>
      destruct (IH b m') as [w' [buf' E]]; rewrite E end.
    exists w', buf'. reflexivity.
Qed.

(** What [executeAttrFor] does once the loop has filled the buffer
    [buf] and left the shared state [w']. *)
Lemma executeAttrFor_splice (value name field elem : string) (slice : Value)
    (values : list Value) (m : Mem) :
  forNames value m = (m, Ok (name, field)) ->
  data (world m) !! field = Some slice ->
  Render (Element (node m)) = Some elem ->
  elements slice = Some values ->
  attached (place m) = true ->
  exists w' buf,
    forLoop name elem values "" m = (withWorld w' m, Ok buf)
    /\ forall nodes, ParseFragment buf = Some nodes ->
      let m' := withPlace (mkPlace false (prevs (place m) ++ nodes) (nexts (place m)))
                          (withWorld w' m) in
      executeAttrFor value m
      = match nodes with
        | [] => (m', Panic IndexOutOfRange)
        | _ :: _ => (m', Ok ((nodes ++ nexts (place m))%list, true))
        end.
Proof.
  intros Hn Hd Hr He Hat.
  destruct (forLoop_world name elem values "" m) as [w' [buf E]].
  exists w', buf. split; [exact E|]. intros nodes Hp m'.
  unfold executeAttrFor. unfold bind at 1. rewrite Hn. cbn [fst snd].
  unfold bind at 1, get. rewrite Hd, Hr, He.
  unfold bind at 1. rewrite E.
  unfold bind at 1, parseNodes. rewrite Hp. unfold ret at 1.
  unfold bind at 1. rewrite forEach_InsertBefore by exact Hat.
  unfold bind at 1, RemoveChild. unfold bind at 1, get, modify. simpl.
  unfold bind, get. subst m'. unfold withPlace, withWorld; simpl.
  destruct nodes; reflexivity.
Qed.

(** Where the parse of the expression is right: when neither name
    holds the letters "in", the expression is cut once, at the word. *)
Lemma forNames_plain (var field : string) (m : Mem) :
  Contains var "in" = false ->
  Contains field "in" = false ->
  forNames (var +:+ " in " +:+ field) m
  = (m, Ok (TrimSpace (var +:+ " "), TrimSpace (" " +:+ field))).
Proof.
  intros Hv Hf. unfold forNames, Split.
  rewrite (splitFrom_in var "" field Hv Hf). reflexivity.
Qed.

(** C5 on the code: the expression is cut at every "in", also inside
    a name.  "Item in Lines" gives the field "L", and a context that
    holds [Lines] and no [L] makes [v-for] panic. *)
Theorem forNames_cuts_names (n : Elem Node) (p : Place) (s : option Comp)
    (i : Z) (l : list (string * Handler)) :
  let m := mkMem n p s (mkWorld i {[ "Lines" := VSlice [VString "one"] ]} l) in
  Split "Item in Lines" "in" = ["Item "; " L"; "es"]
  /\ forNames "Item in Lines" m = (m, Ok ("Item", "L"))
  /\ executeAttrFor "Item in Lines" m = (m, Panic (SliceNotFound "L")).
Proof.
  intros m. split; [reflexivity|]. split; reflexivity.
Qed.

(** C8 on the code: the keys of two loops of one execution collide.
    After three elements under the variable [a1] (keys a10, a11, a12)
    and ten under the variable [a] (keys a3 to a12) the key a12, bound
    by the first loop to its third element, is bound to the last
    element of the second loop (a10 and a11 collide as well), and
    thirteen iterations leave ten new keys in the context. *)
Theorem forLoop_keys_collide (n : Elem Node) (p : Place) (s : option Comp)
    (l : list (string * Handler)) (elem1 elem2 : string) :
  let m0 := mkMem n p s (mkWorld 0 twoSlices l) in
  let m1 := fst (forLoop "a1" elem1 firstSlice "" m0) in
  let m2 := fst (forLoop "a" elem2 secondSlice "" m1) in
  data (world m1) !! "a12" = Some (VString "x2")
  /\ data (world m2) !! "a12" = Some (VInt 9)
  /\ id (world m2) = 13
  /\ (length firstSlice + length secondSlice = 13)%nat
  /\ size (data (world m2)) = (size twoSlices + 10)%nat.
Proof.
  intros m0 m1 m2. repeat split; vm_compute; reflexivity.
Qed.

Lemma kind_prefix (key : string) : HasPrefix key (kind key) = true.
Proof.
  unfold kind, Split.
  destruct (splitFrom_head ":" "" key) as [pre [rest [E Hp]]].
  rewrite E. exact Hp.
Qed.

(** A key of one of the six kinds is a directive key. *)
Lemma kind_directive (key : string) :
  In (kind key) kinds -> HasPrefix key v = true.
Proof.
  intros Hk. apply (HasPrefix_trans key (kind key) v); [apply kind_prefix|].
  unfold kinds in Hk. simpl in Hk.
  destruct Hk as [<-|[<-|[<-|[<-|[<-|[<-|[]]]]]]]; reflexivity.
Qed.

(** A key that starts with one of the six prefixes is a directive key. *)
Lemma placed_directive (a : Attribute) :
  (place_of a < 6)%nat -> HasPrefix (Key a) v = true.
Proof.
  intros Hp. destruct (HasPrefix (Key a) v) eqn:E; [reflexivity|].
  pose proof (ranked_prefix a) as R.
  destruct R as (_ & _ & _ & _ & _ & _ & R).
  rewrite E in R. simpl in R. unfold ranked in R. symmetry in R.
  apply Nat.eqb_eq in R. unfold place_of in Hp. lia.
Qed.

End Handlers.

(** ** The traversal *)

Section Traversal.

Context {host : Host}.

(** One turn of the loop over the attributes, at a directive. *)
Lemma executeAttrs_dispatch (fuel i : nat) (m : Mem) (attr : Attribute) :
  Attr (node m) !! i = Some attr ->
  HasPrefix (Key attr) v = true ->
  executeAttrs (S fuel) i m
  = match executeAttr attr (withAttr (deleteAttr (Attr (node m)) i) m) with
    | (m', Ok (next, true)) => (m', Ok (Some next))
    | (m', Ok (_, false)) => executeAttrs fuel i m'
    | (m', Panic err) => (m', Panic err)
    | (m', OutOfFuel) => (m', OutOfFuel)
    end.
Proof.
  intros Hi Hv. cbn [executeAttrs]. unfold bind at 1, get. rewrite Hi, Hv.
  unfold bind at 1, modify. unfold bind at 1.
  destruct (executeAttr attr _) as [m' [[next [|]]|err|]]; reflexivity.
Qed.

(** One turn of the loop over the attributes, at another attribute. *)
Lemma executeAttrs_skip (fuel i : nat) (m : Mem) (attr : Attribute) :
  Attr (node m) !! i = Some attr ->
  HasPrefix (Key attr) v = false ->
  executeAttrs (S fuel) i m = executeAttrs fuel (S i) m.
Proof.
  intros Hi Hv. cbn [executeAttrs]. unfold bind at 1, get. now rewrite Hi, Hv.
Qed.

(** The end of the loop over the attributes. *)
Lemma executeAttrs_end (fuel i : nat) (m : Mem) :
  Attr (node m) !! i = None ->
  executeAttrs (S fuel) i m = (m, Ok None).
Proof.
  intros Hi. cbn [executeAttrs]. unfold bind at 1, get. now rewrite Hi.
Qed.

(** The memory that [executeElement] starts the loop over the
    attributes with. *)
Lemma executeElement_element (fuel : nat) (e : Elem Node) (p : Place) (w : World) :
  executeElement (S fuel) (Element e) p w
  = match executeAttrs fuel 0
            (mkMem (mkElem (Data e) (orderAttrs (Attr e)) (Children e))
                   p (newSub (Data e)) w) with
    | (m, Ok (Some next)) => Ok (Element (node m), place m, world m, next)
    | (m, Ok None) =>
        match sub m with
        | Some s =>
            match executeSub s with
            | Ok subNode =>
                match spliceSub subNode m with
                | (m', Ok next) => Ok (Element (node m'), place m', world m', next)
                | (_, Panic err) => Panic err
                | (_, OutOfFuel) => OutOfFuel
                end
            | Panic err => Panic err
            | OutOfFuel => OutOfFuel
            end
        | None =>
            match executeChildren (executeElement fuel) fuel
                    (Children (node m)) (Children (node m)) (world m) with
            | Ok (kids, w') =>
                Ok (Element (mkElem (Data (node m)) (Attr (node m)) kids),
                    place m, w', NextSibling (place m))
            | Panic err => Panic err
            | OutOfFuel => OutOfFuel
            end
        end
    | (_, Panic err) => Panic err
    | (_, OutOfFuel) => OutOfFuel
    end.
Proof. reflexivity. Qed.

(** No attribute that [orderAttrs] returns is without a place. *)
Lemma orderAttrs_placed (attrs : list Attribute) :
  Forall (fun a => place_of a <> 7%nat) (orderAttrs attrs).
Proof.
  apply List.Forall_forall. intros a Ha.
  apply (Permutation_in _ (orderAttrs_perm attrs)) in Ha. apply filter_In in Ha.
  destruct Ha as [_ Ha]. apply negb_true_iff, Nat.eqb_neq in Ha. exact Ha.
Qed.

(** A panic of a dispatch that the loop over the attributes comes to
    is the result of the loop. *)
Lemma attrsReach_panic (fuel i : nat) (m : Mem) (attr : Attribute)
    (m1 m' : Mem) (err : Error) :
  attrsReach fuel i m attr m1 ->
  executeAttr attr m1 = (m', Panic err) ->
  executeAttrs fuel i m = (m', Panic err).
Proof.
  intros Hr Hx. revert i m Hr.
  induction fuel as [|fuel IH]; intros i m Hr; [destruct Hr|].
  cbn [attrsReach] in Hr.
  destruct (Attr (node m) !! i) as [a|] eqn:Hi; [|destruct Hr].
  destruct (HasPrefix (Key a) v) eqn:Hv.
  - rewrite (executeAttrs_dispatch fuel i m a Hi Hv).
    destruct Hr as [[-> ->]|[m2 [next [E Hr]]]].
    + now rewrite Hx.
    + rewrite E. now apply IH.
  - rewrite (executeAttrs_skip fuel i m a Hi Hv). now apply IH.
Qed.

(** A panic of an execution that the loop over the children comes to
    is the result of the loop. *)
Lemma childrenReach_panic (reach : Node -> Place -> World -> Prop)
    (exec : Node -> Place -> World -> Res Visit) (err : Error) :
  (forall c p w, reach c p w -> exec c p w = Panic err) ->
  forall (fuel : nat) (kids : list Node) (child : Ptr) (w : World),
    childrenReach reach exec fuel kids child w ->
    executeChildren exec fuel kids child w = Panic err.
Proof.
  intros Hexec. induction fuel as [|fuel IH]; intros kids child w Hr;
    [destruct Hr|].
  cbn [childrenReach] in Hr. destruct child as [|c rest]; [destruct Hr|].
  cbn [executeChildren].
  destruct Hr as [Hr|[c' [p' [w' [next [E Hr]]]]]].
  - now rewrite (Hexec _ _ _ Hr).
  - rewrite E. now apply IH.
Qed.

(** A panic of a dispatch that the execution of a node comes to is the
    result of the execution: nothing on the way up takes it back. *)
Lemma reaches_panic (fuel : nat) (n : Node) (p : Place) (w : World)
    (attr : Attribute) (m1 m' : Mem) (err : Error) :
  reaches fuel n p w attr m1 ->
  executeAttr attr m1 = (m', Panic err) ->
  executeElement fuel n p w = Panic err.
Proof.
  intros Hr Hx. revert n p w Hr.
  induction fuel as [|fuel IH]; intros n p w Hr; [destruct Hr|].
  cbn [reaches] in Hr. destruct n as [e|content|content]; try destruct Hr.
  - rewrite executeElement_element.
    now rewrite (attrsReach_panic _ _ _ _ _ _ _ H Hx).
  - destruct H as [m [E [Hs Hc]]].
    rewrite executeElement_element, E, Hs.
    now rewrite (childrenReach_panic _ _ err IH _ _ _ _ Hc).
Qed.

(** A panic of a dispatch that the execution of a template comes to:
    the execution returns no tree. *)
Lemma dispatches_panic (fuel : nat) (tmpl : string) (w : World)
    (attr : Attribute) (m1 m' : Mem) (err : Error) :
  dispatches fuel tmpl w attr m1 ->
  executeAttr attr m1 = (m', Panic err) ->
  execute fuel tmpl w = Panic err.
Proof.
  intros [nodes [Hp Hr]] Hx. unfold execute, parseNode. rewrite Hp.
  now rewrite (reaches_panic _ _ _ _ _ _ _ _ Hr Hx).
Qed.

(** The directive that is first in the order of execution of an
    element is dispatched. *)
Lemma reaches_first (fuel : nat) (e : Elem Node) (p : Place) (w : World)
    (attr : Attribute) (rest : list Attribute) :
  orderAttrs (Attr e) = attr :: rest ->
  HasPrefix (Key attr) v = true ->
  reaches (S (S fuel)) (Element e) p w attr
          (mkMem (mkElem (Data e) rest (Children e)) p (newSub (Data e)) w).
Proof.
  intros Ho Hv. cbn [reaches]. left. rewrite Ho. cbn [attrsReach].
  cbn [node Attr lookup list_lookup]. rewrite Hv. left. split; [reflexivity|].
  unfold withAttr, deleteAttr. simpl. now rewrite drop_0.
Qed.

(** C2 on the code: [v-for] over a sequence without elements.  The
    buffer stays empty; when the parser returns no node for it (as the
    markup library does), the node is taken out of its parent and the
    index expression [nodes[0]] panics: no pointer is returned, and
    every execution of a template that comes to this dispatch ends in
    that panic. *)
Theorem executeAttrFor_empty_panics (value name field elem : string)
    (slice : Value) (m : Mem) :
  forNames value m = (m, Ok (name, field)) ->
  data (world m) !! field = Some slice ->
  Render (Element (node m)) = Some elem ->
  elements slice = Some [] ->
  ParseFragment "" = Some [] ->
  attached (place m) = true ->
  executeAttr (mkAttr vFor value) m = (detached m, Panic IndexOutOfRange)
  /\ (forall fuel tmpl w,
        dispatches fuel tmpl w (mkAttr vFor value) m ->
        execute fuel tmpl w = Panic IndexOutOfRange).
Proof.
  intros Hn Hd Hr He Hp Hat.
  assert (Hx : executeAttr (mkAttr vFor value) m = (detached m, Panic IndexOutOfRange)).
  { change (executeAttr (mkAttr vFor value) m) with (executeAttrFor value m).
    destruct (executeAttrFor_splice value name field elem slice [] m Hn Hd Hr He Hat)
      as [w' [buf [E Hs]]].
    cbn [forLoop] in E. unfold ret in E. injection E as Ew Eb. subst buf.
    rewrite (Hs [] Hp). unfold detached. rewrite <- Ew, app_nil_r. reflexivity. }
  split; [exact Hx|].
  intros fuel tmpl w Hdis. exact (dispatches_panic _ _ _ _ _ _ _ Hdis Hx).
Qed.

(** C1, as the code has it.  For a directive that names a field which
    the context does not hold when the directive is dispatched: the
    dispatch of [v-bind], [v-html] and [v-model] panics with "unknown
    data field" and the field name, and every execution of a template
    that comes to this dispatch returns no tree but that panic.  The
    dispatch of [v-if] raises nothing: the node is removed from its
    parent and the former next sibling is returned with [true]. *)
Theorem absent_field_panics (attr : Attribute) (m1 : Mem) :
  data (world m1) !! Val attr = None ->
  (In (kind (Key attr)) [vBind; vHtml; vModel] ->
     (exists m', executeAttr attr m1 = (m', Panic (UnknownDataField (Val attr))))
     /\ (forall fuel tmpl w,
           dispatches fuel tmpl w attr m1 ->
           execute fuel tmpl w = Panic (UnknownDataField (Val attr))))
  /\ (kind (Key attr) = vIf ->
      attached (place m1) = true ->
      executeAttr attr m1 = (detached m1, Ok (nexts (place m1), true))).
Proof.
  intros Hd. split.
  - intros Hk.
    assert (Hx : exists m', executeAttr attr m1
                            = (m', Panic (UnknownDataField (Val attr)))).
    { unfold executeAttr.
      change (default "" (Split (Key attr) ":" !! 0%nat)) with (kind (Key attr)).
      simpl in Hk. destruct Hk as [<-|[<-|[<-|[]]]]; simpl.
      - eexists. unfold executeAttrBind, bind, get, must, panic. now rewrite Hd.
      - eexists. unfold executeAttrHtml, bind, get, must, panic. now rewrite Hd.
      - eexists. unfold executeAttrModel, bind, get, must, panic, appendAttr,
          addEventListener, modify. simpl. now rewrite Hd. }
    split; [exact Hx|]. destruct Hx as [m' Hx].
    intros fuel tmpl w Hr. exact (dispatches_panic _ _ _ _ _ _ _ Hr Hx).
  - intros Hk Hat. unfold executeAttr.
    change (default "" (Split (Key attr) ":" !! 0%nat)) with (kind (Key attr)).
    rewrite Hk. simpl. unfold executeAttrIf, bind, get, RemoveChild, bind, get,
      modify, ret. rewrite Hd, Hat. unfold NextSibling. now rewrite Hat.
Qed.

End Traversal.

(** ** The text pass (claim C9) *)

Section TextPass.

Context {host : Host}.

Lemma executeText_element (e : Elem Node) (d : gmap string Value) :
  executeText (Element e) d
  = match executeTexts (Children e) d with
    | Ok kids => Ok (Element (mkElem (Data e) (Attr e) kids))
    | Panic err => Panic err
    | OutOfFuel => OutOfFuel
    end.
Proof.
  cbn [executeText].
  match goal with |- match ?f _ with _ => _ end = _ =>
    assert (E : forall l, f l = executeTexts l d)
      by (induction l as [|x l IH]; [reflexivity|];
          cbn [executeTexts]; rewrite <- IH; reflexivity);
    rewrite E end.
  reflexivity.
Qed.

Lemma executeText_rendered (n : Node) (d : gmap string Value) :
  keepsPlainText -> rendered n = true -> executeText n d = Ok n.
Proof.
  intros Hm. induction n as [tag a kids IH|content|content] using Node_induction;
    intros Hr.
  - rewrite executeText_element. cbn [Children Data Attr].
    cbn [rendered Children] in Hr.
    assert (E : executeTexts kids d = Ok kids).
    { induction IH as [|x l Hx Hl IHl]; [reflexivity|].
      cbn [forallb] in Hr. apply andb_true_iff in Hr. destruct Hr as [Hr1 Hr2].
      cbn [executeTexts]. now rewrite (Hx Hr1), (IHl Hr2). }
    now rewrite E.
  - cbn [executeText]. destruct (String.eqb (TrimSpace content) ""); [reflexivity|].
    cbn [rendered] in Hr. apply negb_true_iff in Hr. now rewrite (Hm content d Hr).
  - reflexivity.
Qed.

(** C9.  With a mustache engine that renders a text without
    placeholder as it is, the text pass returns a tree without
    placeholders unchanged; so a second pass over the tree that a first
    pass returned, when no placeholder is left in it, changes nothing. *)
Theorem executeText_idempotent (n : Node) (d : gmap string Value) :
  keepsPlainText ->
  (rendered n = true -> executeText n d = Ok n)
  /\ (forall n', executeText n d = Ok n' -> rendered n' = true ->
        executeText n' d = Ok n').
Proof.
  intros Hm. split.
  - now apply executeText_rendered.
  - intros n' _ Hr. now apply executeText_rendered.
Qed.

End TextPass.

(** ** No directive is left in the output (claim C10) *)

Section Clean.

Context {host : Host}.

Ltac split_match H :=
  repeat match type of H with
  | context [match ?x with _ => _ end] => destruct x eqn:?
  | context [if ?x then _ else _] => destruct x eqn:?
  end.

Lemma effect_same (m : Mem) : effect m m ([], false).
Proof. split; [reflexivity|]. exists []. now rewrite app_nil_r. Qed.

Lemma executeAttrBind_effect (key value : string) (m m' : Mem) (u : unit) :
  executeAttrBind key value m = (m', Ok u) -> effect m m' ([], false).
Proof.
  unfold executeAttrBind, bind, get, must, panic, ret, modify, appendAttr.
  intros H. split_match H; inversion H; subst; clear H;
    try apply effect_same;
    (split; [reflexivity|]); simpl;
    first [ now exists [] ; now rewrite app_nil_r | eexists; reflexivity ].
Qed.

Lemma forEach_AppendChild (nodes : list Node) (m : Mem) :
  forEach nodes AppendChild m = (withChildren (Children (node m) ++ nodes) m, Ok tt).
Proof.
  revert m. induction nodes as [|n nodes IH]; intros m.
  - simpl. unfold ret. rewrite app_nil_r. now destruct m as [[d a c] p s w].
  - cbn [forEach]. unfold bind at 1. unfold AppendChild at 1, modify.
    rewrite IH. unfold withChildren. simpl. now rewrite <- app_assoc.
Qed.

Lemma executeAttrHtml_effect (field : string) (m m' : Mem) (u : unit) :
  executeAttrHtml field m = (m', Ok u) -> effect m m' ([], false).
Proof.
  unfold executeAttrHtml. unfold bind at 1, get.
  destruct (data (world m) !! field) as [[html| | | |]|];
    try (unfold must, panic; discriminate).
  unfold bind at 1, parseNodes.
  destruct (ParseFragment html) as [nodes|]; [|unfold must, panic; discriminate].
  unfold ret at 1. rewrite forEach_AppendChild.
  intros H. inversion H; subst; clear H.
  split; [reflexivity|]. exists []. simpl. now rewrite app_nil_r.
Qed.

Lemma executeAttrModel_effect (field : string) (m m' : Mem) (u : unit) :
  executeAttrModel field m = (m', Ok u) -> effect m m' ([], false).
Proof.
  unfold executeAttrModel, bind, get, must, panic, ret, modify, appendAttr,
    addEventListener. simpl.
  intros H. split_match H; inversion H; subst; clear H.
  split; [reflexivity|]. simpl. rewrite <- app_assoc. eexists; reflexivity.
Qed.

Lemma executeAttrOn_effect (typ method : string) (m m' : Mem) (u : unit) :
  executeAttrOn typ method m = (m', Ok u) -> effect m m' ([], false).
Proof.
  unfold executeAttrOn, bind, modify, appendAttr, addEventListener. simpl.
  intros H. inversion H; subst; clear H.
  split; [reflexivity|]. simpl. eexists; reflexivity.
Qed.

Lemma executeAttrIf_eq (field : string) (m : Mem) :
  executeAttrIf field m
  = match data (world m) !! field with
    | Some (VBool true) => (m, Ok ([], false))
    | _ => if attached (place m)
           then (detached m, Ok (NextSibling (place m), true))
           else (m, Panic NilDereference)
    end.
Proof.
  unfold executeAttrIf, bind, get, ret, RemoveChild, bind, get, modify, panic,
    NextSibling, detached.
  destruct (data (world m) !! field) as [[html|[|]|z|l|o]|];
    destruct (attached (place m)); reflexivity.
Qed.

Lemma executeAttrIf_effect (field : string) (m m' : Mem) (r : Ptr * bool) :
  executeAttrIf field m = (m', Ok r) -> effect m m' r.
Proof.
  rewrite executeAttrIf_eq. intros H.
  assert (Hrem : (if attached (place m)
                  then (detached m, Ok (NextSibling (place m), true))
                  else (m, @Panic (Ptr * bool) NilDereference)) = (m', Ok r) ->
                 effect m m' r).
  { clear H. destruct (attached (place m)) eqn:Hat; [|discriminate].
    intros H. inversion H; subst; clear H.
    unfold effect, NextSibling, detached. simpl. rewrite Hat. now repeat split. }
  destruct (data (world m) !! field) as [[html|[|]|z|l|o]|]; try (now apply Hrem).
  inversion H; subst. apply effect_same.
Qed.

Lemma forEach_InsertBefore_nil (nodes : list Node) (m : Mem) :
  attached (place m) = false ->
  forEach nodes InsertBefore m
  = match nodes with
    | [] => (m, Ok tt)
    | _ :: _ => (m, Panic NilDereference)
    end.
Proof.
  intros Hat. destruct nodes as [|n nodes]; [reflexivity|].
  cbn [forEach]. unfold bind at 1. unfold InsertBefore, bind, get, panic.
  now rewrite Hat.
Qed.

Lemma executeAttrFor_effect (value : string) (m m' : Mem) (r : Ptr * bool) :
  executeAttrFor value m = (m', Ok r) -> effect m m' r.
Proof.
  unfold executeAttrFor. unfold bind at 1. unfold forNames.
  destruct (Split value "in" !! 0%nat) as [v0|];
    [destruct (Split value "in" !! 1%nat) as [v1|]|];
    try (unfold panic; discriminate).
  unfold ret at 1. cbn [fst snd]. unfold bind at 1, get.
  destruct (data (world m) !! TrimSpace v1) as [slice|];
    [|unfold must, panic; discriminate].
  destruct (Render (Element (node m))) as [elem|];
    [|unfold must, panic; discriminate].
  destruct (elements slice) as [values|]; [|unfold panic; discriminate].
  unfold bind at 1.
  destruct (forLoop_world (TrimSpace v0) elem values "" m) as [w' [buf E]].
  rewrite E. unfold bind at 1, parseNodes.
  destruct (ParseFragment buf) as [nodes|]; [|unfold must, panic; discriminate].
  unfold ret at 1. unfold bind at 1.
  destruct (attached (place m)) eqn:Hat.
  - rewrite forEach_InsertBefore by exact Hat.
    unfold bind at 1, RemoveChild. unfold bind at 1, get, modify. simpl.
    unfold bind, get. destruct nodes as [|n nodes]; [unfold panic; discriminate|].
    unfold ret. intros H. inversion H; subst; clear H.
    unfold effect. simpl. rewrite Hat. repeat split. now rewrite <- app_assoc.
  - rewrite forEach_InsertBefore_nil by exact Hat.
    destruct nodes as [|n nodes]; [|discriminate].
    unfold bind at 1, RemoveChild. unfold bind at 1, get, panic. simpl.
    rewrite Hat. discriminate.
Qed.

(** The effect of the dispatch of any directive. *)
Lemma executeAttr_effect (attr : Attribute) (m m' : Mem) (r : Ptr * bool) :
  executeAttr attr m = (m', Ok r) -> effect m m' r.
Proof.
  unfold executeAttr.
  repeat match goal with
  | |- context [String.eqb ?a ?b] => destruct (String.eqb a b)
  end.
  - unfold bind. destruct (executeAttrBind _ _ m) as [m1 [u| |]] eqn:E;
      try discriminate. unfold ret. intros H; inversion H; subst.
    eapply executeAttrBind_effect, E.
  - apply executeAttrFor_effect.
  - unfold bind. destruct (executeAttrHtml _ m) as [m1 [u| |]] eqn:E;
      try discriminate. unfold ret. intros H; inversion H; subst.
    eapply executeAttrHtml_effect, E.
  - apply executeAttrIf_effect.
  - unfold bind. destruct (executeAttrModel _ m) as [m1 [u| |]] eqn:E;
      try discriminate. unfold ret. intros H; inversion H; subst.
    eapply executeAttrModel_effect, E.
  - unfold bind. destruct (executeAttrOn _ _ m) as [m1 [u| |]] eqn:E;
      try discriminate. unfold ret. intros H; inversion H; subst.
    eapply executeAttrOn_effect, E.
  - unfold must, panic. discriminate.
Qed.

(** The loop over the attributes: when it ends no directive is left
    on the node, which hangs where it did; when it returns a pointer
    the node has left its parent. *)
Lemma executeAttrs_inv (fuel i : nat) (m m' : Mem) (r : option Ptr) :
  List.Forall (fun a => plain a = true) (firstn i (Attr (node m))) ->
  executeAttrs fuel i m = (m', Ok r) ->
  match r with
  | None => List.Forall (fun a => plain a = true) (Attr (node m'))
            /\ place m' = place m
  | Some next => attached (place m) = true /\ attached (place m') = false
                 /\ (prevs (place m') ++ nexts (place m')
                     = prevs (place m) ++ next)%list
  end.
Proof.
  revert i m. induction fuel as [|fuel IH]; intros i m Hpre H; [discriminate|].
  destruct (Attr (node m) !! i) as [attr|] eqn:Hi.
  - destruct (HasPrefix (Key attr) v) eqn:Hv.
    + rewrite (executeAttrs_dispatch fuel i m attr Hi Hv) in H.
      destruct (executeAttr attr _) as [m1 [[next [|]]|err|]] eqn:E;
        try discriminate.
      * inversion H; subst; clear H.
        apply executeAttr_effect in E. exact E.
      * apply executeAttr_effect in E. destruct E as [Hp [extra Hx]].
        cbn [withAttr node place Attr] in Hp, Hx.
        apply IH in H.
        -- rewrite Hp in H. exact H.
        -- rewrite Hx. unfold deleteAttr. rewrite <- app_assoc.
           apply lookup_lt_Some in Hi.
           rewrite take_app_le by (rewrite length_take; lia).
           rewrite take_take. replace (i `min` i)%nat with i by lia. exact Hpre.
    + rewrite (executeAttrs_skip fuel i m attr Hi Hv) in H.
      apply IH in H; [exact H|].
      rewrite (take_S_r _ _ _ Hi). apply List.Forall_app. split; [exact Hpre|].
      constructor; [|constructor]. unfold plain. now rewrite Hv.
  - rewrite (executeAttrs_end fuel i m Hi) in H. inversion H; subst; clear H.
    split; [|reflexivity].
    apply lookup_ge_None in Hi. now rewrite take_ge in Hpre by exact Hi.
Qed.

Lemma forallb_Forall {A : Type} (f : A -> bool) (l : list A) :
  forallb f l = true <-> List.Forall (fun x => f x = true) l.
Proof.
  induction l as [|x l IH]; simpl.
  - split; [constructor | reflexivity].
  - rewrite andb_true_iff, IH. split.
    + intros [Hx Hl]. now constructor.
    + intros H. inversion H; subst. now split.
Qed.

Lemma spliceSub_effect (subNode : Node) (m m' : Mem) (next : Ptr) :
  spliceSub subNode m = (m', Ok next) ->
  attached (place m) = true /\ attached (place m') = false
  /\ prevs (place m') = (prevs (place m) ++ children subNode)%list
  /\ nexts (place m') = nexts (place m)
  /\ next = nexts (place m).
Proof.
  unfold spliceSub. unfold bind at 1.
  destruct (attached (place m)) eqn:Hat.
  - rewrite forEach_InsertBefore by exact Hat.
    unfold bind at 1, get. unfold bind at 1, RemoveChild. unfold bind at 1, get.
    simpl. unfold modify, ret, NextSibling. simpl.
    intros H. inversion H; subst; clear H. simpl. now repeat split.
  - rewrite forEach_InsertBefore_nil by exact Hat.
    destruct (children subNode); [|discriminate].
    unfold bind at 1, get. unfold bind at 1, RemoveChild. unfold bind at 1, get.
    rewrite Hat. unfold panic. discriminate.
Qed.

Lemma before_app (done child : list Node) :
  before (done ++ child) child = done.
Proof.
  unfold before. rewrite length_app.
  replace (length done + length child - length child)%nat with (length done) by lia.
  now rewrite take_app_length.
Qed.

(** The loop over the children leaves clean children, when every call
    of [exec] leaves what [executeElement] has to leave. *)
Lemma executeChildren_clean
    (exec : Node -> Place -> World -> Res Visit) :
  (forall n p w x, exec n p w = Ok x -> visited p x) ->
  forall (fuel : nat) (done child kids' : list Node) (w w' : World),
    List.Forall (fun n => clean n = true) done ->
    executeChildren exec fuel (done ++ child) child w = Ok (kids', w') ->
    List.Forall (fun n => clean n = true) kids'.
Proof.
  intros Hexec. induction fuel as [|fuel IH]; intros done child kids' w w' Hd H;
    [discriminate|].
  cbn [executeChildren] in H. destruct child as [|c rest].
  - inversion H; subst. now rewrite app_nil_r.
  - rewrite before_app in H.
    destruct (exec c (mkPlace true done rest) w) as [[[[c' p'] w1] next]|err|] eqn:E;
      try discriminate.
    apply Hexec in E. cbn in E. destruct E as [done' [Hs Hc]].
    rewrite Hs, app_assoc in H. apply IH in H; [exact H|].
    apply List.Forall_app. now split.
Qed.

Lemma clean_children (n : Node) :
  clean n = true -> List.Forall (fun k => clean k = true) (children n).
Proof.
  destruct n as [e|content|content]; simpl; intros H; try constructor.
  apply andb_true_iff in H. now apply forallb_Forall.
Qed.

(** What [executeElement] leaves. *)
Lemma executeElement_visited (fuel : nat) (n : Node) (p : Place) (w : World)
    (x : Visit) :
  cleanSubs -> executeElement fuel n p w = Ok x -> visited p x.
Proof.
  intros Hsub. revert n p w x.
  induction fuel as [|fuel IH]; intros n p w x H; [discriminate|].
  destruct n as [e|content|content].
  - rewrite executeElement_element in H.
    destruct (executeAttrs fuel 0 _) as [m [[next|]|err|]] eqn:EA; try discriminate.
    + injection H as <-.
      apply executeAttrs_inv in EA; [|constructor].
      cbn [place] in EA. destruct EA as [Hat [Hat' Hs]].
      unfold visited. rewrite Hat. exists [].
      split; [|constructor]. unfold siblings. rewrite Hat'. exact Hs.
    + apply executeAttrs_inv in EA; [|constructor].
      cbn [place] in EA. destruct EA as [Hplain Hp].
      destruct (sub m) as [s|].
      * destruct (executeSub s) as [subNode|err|] eqn:ES; try discriminate.
        destruct (spliceSub subNode m) as [m' [next|err|]] eqn:EP; try discriminate.
        injection H as <-.
        apply spliceSub_effect in EP.
        destruct EP as (Hat & Hat' & Hpr & Hnx & ->).
        unfold visited. rewrite <- Hp, Hat. exists (children subNode).
        split; [|apply clean_children, (Hsub s), ES].
        unfold siblings. rewrite Hat', Hpr, Hnx. simpl. now rewrite <- app_assoc.
      * destruct (executeChildren _ _ _ _ _) as [[kids w']|err|] eqn:EC;
          try discriminate.
        injection H as <-.
        apply (executeChildren_clean _ (IH) fuel [] (Children (node m)) kids
                 (world m) w') in EC; [|constructor].
        assert (Hc : clean (Element (mkElem (Data (node m)) (Attr (node m)) kids))
                     = true).
        { cbn [clean Attr Children]. apply andb_true_iff.
          split; now apply forallb_Forall. }
        unfold visited. rewrite Hp. destruct (attached p) eqn:Hat; [|exact Hc].
        eexists [_]. split; [|constructor; [exact Hc|constructor]].
        unfold siblings, NextSibling. now rewrite Hat.
  - cbn [executeElement] in H. injection H as <-.
    unfold visited. destruct (attached p) eqn:Hat; [|reflexivity].
    exists [Text content]. split; [|repeat constructor].
    unfold siblings, NextSibling. now rewrite Hat.
  - cbn [executeElement] in H. injection H as <-.
    unfold visited. destruct (attached p) eqn:Hat; [|reflexivity].
    exists [Comment content]. split; [|repeat constructor].
    unfold siblings, NextSibling. now rewrite Hat.
Qed.

(** The text pass touches no attribute. *)
Lemma executeText_clean (n n' : Node) (d : gmap string Value) :
  executeText n d = Ok n' -> clean n = true -> clean n' = true.
Proof.
  revert n'. induction n as [tag a kids IH|content|content] using Node_induction;
    intros n' H Hc.
  - rewrite executeText_element in H. cbn [Children Data Attr] in H.
    destruct (executeTexts kids d) as [kids'|err|] eqn:E; try discriminate.
    injection H as <-. cbn [clean Attr Children] in *.
    apply andb_true_iff in Hc. destruct Hc as [Ha Hk].
    apply andb_true_iff. split; [exact Ha|].
    clear Ha. revert kids' E Hk.
    induction IH as [|x l Hx Hl IHl]; intros kids' E Hk.
    + injection E as <-. reflexivity.
    + cbn [executeTexts] in E.
      destruct (executeText x d) as [x'|err|] eqn:Ex; try discriminate.
      destruct (executeTexts l d) as [l'|err|] eqn:El; try discriminate.
      injection E as <-. cbn [forallb] in *.
      apply andb_true_iff in Hk. destruct Hk as [Hk1 Hk2].
      apply andb_true_iff. split; [now apply Hx | now apply IHl].
  - cbn [executeText] in H.
    destruct (String.eqb (TrimSpace content) ""); [now injection H as <-|].
    destruct (mustacheRender content d); [now injection H as <-|discriminate].
  - now injection H as <-.
Qed.

End Clean.

(** ** The engine at work on the toy host *)

Example toy_loop :
  execute (host := Toy.host) 10 "<li v-for='Todo in Todos'>{{ Todo }}</li>"
          (mkWorld 0 Toy.context [])
  = Ok (Element (mkElem "" [] [Toy.li [] "learn"; Toy.li [] "build"]),
        mkWorld 2 (<["Todo1" := VString "build"]>
                     (<["Todo0" := VString "learn"]> Toy.context)) []).
Proof. vm_compute. reflexivity. Qed.

Example toy_paragraph :
  execute (host := Toy.host) 10 Toy.para Toy.start
  = Ok (Element (mkElem "" []
          [ Element (mkElem "p" [mkAttr "class" "big"; mkAttr "click" "Go"] [Text "hi"]);
            Comment "end" ]),
        mkWorld 0 Toy.context [("click", HOn)]).
Proof. vm_compute. reflexivity. Qed.

(** ** The statements at concrete inputs *)

Lemma executeAttrIf_frame_witness :
  executeAttr (mkAttr vIf "Show") (Toy.mem []) = (Toy.mem [], Ok ([], false))
  /\ executeAttr (mkAttr vIf "Hide") (Toy.mem [])
     = (detached (Toy.mem []), Ok ([Text "b"; Text "c"], true)).
Proof.
  split.
  - apply (proj1 (executeAttrIf_frame "Show" (Toy.mem []))). reflexivity.
  - apply (proj2 (executeAttrIf_frame "Hide" (Toy.mem []))); reflexivity.
Defined.

Lemma toy_dispatches_bound :
  dispatches (host := Toy.host) 3 Toy.bound Toy.start
    (mkAttr "v-bind:title" "Missing")
    (mkMem (mkElem "b" [] [Text "x"]) (mkPlace true [] []) None Toy.start).
Proof.
  exists [Element Toy.boundElem]. split; [reflexivity|].
  cbn [reaches]. right. eexists. split; [reflexivity|]. split; [reflexivity|].
  cbn [childrenReach]. left.
  cbn [reaches]. left. cbn. left. split; reflexivity.
Defined.

Lemma absent_field_panics_witness :
  execute (host := Toy.host) 3 Toy.bound Toy.start = Panic (UnknownDataField "Missing")
  /\ (let m := mkMem Toy.paraElem (mkPlace true [] [Comment "end"]) None Toy.blank in
      executeAttr (host := Toy.host) (mkAttr "v-if" "Show") m
      = (detached m, Ok ([Comment "end"], true))).
Proof.
  split.
  - refine (proj2 (proj1 (absent_field_panics (host := Toy.host)
             (mkAttr "v-bind:title" "Missing")
             (mkMem (mkElem "b" [] [Text "x"]) (mkPlace true [] []) None Toy.start)
             eq_refl) _) 3%nat Toy.bound Toy.start toy_dispatches_bound).
    simpl. tauto.
  - intros m.
    exact (proj2 (absent_field_panics (host := Toy.host) (mkAttr "v-if" "Show") m
                    eq_refl) eq_refl eq_refl).
Defined.

(** C4 as the specification words it fails: the element carries the
    attribute [v-foo], of a kind that is none of the six, and its
    execution raises nothing; the attribute is gone. *)
Lemma unknown_prefix_is_dropped :
  HasPrefix "v-foo" v = true
  /\ ~ In (kind "v-foo") kinds
  /\ executeElement (host := Toy.host) 3
       (Element (mkElem "p" [mkAttr "v-foo" "1"] [])) (mkPlace true [] []) Toy.start
     = Ok (Element (mkElem "p" [] []), mkPlace true [] [], Toy.start, []).
Proof.
  split; [reflexivity|]. split; [|reflexivity].
  unfold kinds. simpl. intros H.
  repeat (destruct H as [H|H]; [discriminate H|]). exact H.
Qed.

Lemma toy_once_unknown : ~ In (kind "v-once") kinds.
Proof.
  unfold kinds. simpl. intros H.
  repeat (destruct H as [H|H]; [discriminate H|]). exact H.
Defined.

Lemma toy_dispatches_empty :
  dispatches (host := Toy.host) 3 Toy.empty Toy.start
    (mkAttr "v-for" "Todo in None")
    (mkMem (mkElem "li" [] [Text "x"]) (mkPlace true [] []) None Toy.start).
Proof.
  exists [Toy.li [mkAttr "v-for" "Todo in None"] "x"]. split; [reflexivity|].
  cbn [reaches]. right. eexists. split; [reflexivity|]. split; [reflexivity|].
  cbn [childrenReach]. left.
  cbn [reaches]. left. cbn. left. split; reflexivity.
Defined.

Lemma executeAttrFor_empty_panics_witness :
  execute (host := Toy.host) 3 Toy.empty Toy.start = Panic IndexOutOfRange.
Proof.
  refine (proj2 (executeAttrFor_empty_panics (host := Toy.host) "Todo in None"
            "Todo" "None" "<li>x</li>" (VSlice [])
            (mkMem (mkElem "li" [] [Text "x"]) (mkPlace true [] []) None Toy.start)
            eq_refl eq_refl eq_refl eq_refl eq_refl eq_refl)
          3%nat Toy.empty Toy.start toy_dispatches_empty).
Defined.

(** C6 as the specification words it fails: the field is absent, the
    panic is raised, and the node has the attribute [input] all the
    same, with the handler registered. *)
Lemma executeAttrModel_marks_before_lookup :
  let m := Toy.mem [] in
  let m' := fst (executeAttrModel (host := Toy.host) "Missing" m) in
  snd (executeAttrModel (host := Toy.host) "Missing" m)
    = Panic (UnknownDataField "Missing")
  /\ Attr (node m) = []
  /\ Attr (node m') = [mkAttr "input" "Missing"]
  /\ listeners (world m) = []
  /\ listeners (world m') = [("input", HModel)].
Proof. repeat split. Qed.

Lemma executeAttrModel_marks_first_witness :
  executeAttrModel (host := Toy.host) "Missing" (Toy.mem [])
    = (marked "Missing" (Toy.mem []), Panic (UnknownDataField "Missing"))
  /\ executeAttrModel (host := Toy.host) "Show" (Toy.mem [])
     = (marked "Show" (Toy.mem []), Panic NotOfTypeString)
  /\ executeAttrModel (host := Toy.host) "Name" (Toy.mem [])
     = (withAttr [mkAttr "input" "Name"; mkAttr "value" "Ann"]
                 (marked "Name" (Toy.mem [])), Ok tt).
Proof.
  pose proof (executeAttrModel_marks_first (host := Toy.host)) as T.
  split; [|split].
  - apply (proj1 (T "Missing" (Toy.mem []))). reflexivity.
  - apply (proj1 (proj2 (T "Show" (Toy.mem []))) (VBool true)); [reflexivity|].
    intros val. discriminate.
  - apply (proj1 (proj2 (proj2 (T "Name" (Toy.mem [])))) "Ann"). reflexivity.
Defined.

Lemma toy_keepsPlainText : keepsPlainText (host := Toy.host).
Proof.
  intros content d H. simpl. unfold Toy.mustache. now rewrite H.
Defined.

Lemma executeText_idempotent_witness :
  let n := Element (mkElem "" [] [Toy.li [] "learn"; Toy.li [] "build"]) in
  executeText (host := Toy.host) n Toy.context = Ok n.
Proof.
  intros n.
  apply (proj1 (executeText_idempotent (host := Toy.host) n Toy.context
                  toy_keepsPlainText)).
  reflexivity.
Defined.

(** C1 as the specification words it fails: [v-if] names a field that
    the context does not hold, and the dispatch raises nothing. *)
Lemma if_absent_field_no_error :
  let m := mkMem Toy.paraElem (mkPlace true [] [Comment "end"]) None Toy.blank in
  data (world m) !! "Show" = None
  /\ executeAttr (host := Toy.host) (mkAttr "v-if" "Show") m
     = (detached m, Ok ([Comment "end"], true)).
Proof. split; reflexivity. Qed.

(** * Further properties of the engine *)

(** ** The attribute orderer: its fixed points *)

Section SortedBlocks.

Context {A : Type} (f : A -> nat).

Lemma blocks_nil (rs : list nat) : blocks f rs [] = [].
Proof. unfold blocks. induction rs as [|r rs IH]; [reflexivity|exact IH]. Qed.

Lemma filter_class_cons_other (r : nat) (a : A) (l : list A) :
  f a <> r -> List.filter (inClass f r) (a :: l) = List.filter (inClass f r) l.
Proof.
  intros N. cbn [List.filter]. unfold inClass at 1.
  now destruct (Nat.eqb_spec (f a) r).
Qed.

Lemma blocks_step (r : nat) (rs : list nat) (l : list A) :
  blocks f (r :: rs) l = (List.filter (inClass f r) l ++ blocks f rs l)%list.
Proof. reflexivity. Qed.

Lemma blocks_cons_other (rs : list nat) (a : A) (l : list A) :
  ~ In (f a) rs -> blocks f rs (a :: l) = blocks f rs l.
Proof.
  induction rs as [|r rs IH]; intros Hn; [reflexivity|].
  rewrite !blocks_step, filter_class_cons_other, IH; [reflexivity| |].
  - intros H. apply Hn. now right.
  - intros E. apply Hn. now left.
Qed.

Lemma filter_class_above (r : nat) (a : A) (l : list A) :
  (r < f a)%nat ->
  List.Forall (fun b => (f a <= f b)%nat) l ->
  List.filter (inClass f r) l = [].
Proof.
  intros Hr Hl. induction Hl as [|b l Hb Hl IH]; [reflexivity|].
  cbn [List.filter]. unfold inClass at 1.
  destruct (Nat.eqb_spec (f b) r) as [E|_]; [lia|exact IH].
Qed.

Lemma blocks_cons_least (rs : list nat) (a : A) (l : list A) :
  StronglySorted lt rs ->
  In (f a) rs ->
  List.Forall (fun b => (f a <= f b)%nat) l ->
  blocks f rs (a :: l) = a :: blocks f rs l.
Proof.
  intros Hs. revert a l. induction Hs as [|r rs Hs IH Hall]; intros a l Hin Hl;
    [destruct Hin|].
  rewrite !blocks_step.
  destruct (Nat.eq_dec (f a) r) as [E|N].
  - rewrite blocks_cons_other.
    + cbn [List.filter]. unfold inClass at 1.
      apply Nat.eqb_eq in E. now rewrite E.
    + intros H. rewrite List.Forall_forall in Hall. specialize (Hall _ H). lia.
  - destruct Hin as [E|Hin]; [congruence|].
    assert (Hlt : (r < f a)%nat)
      by (rewrite List.Forall_forall in Hall; exact (Hall _ Hin)).
    rewrite filter_class_cons_other by exact N.
    rewrite (filter_class_above r a l Hlt Hl). cbn [app].
    now apply IH.
Qed.

(** A list that is sorted by class, with every class among [rs], is
    its own sequence of blocks. *)
Lemma blocks_sorted_same (rs : list nat) (l : list A) :
  StronglySorted lt rs ->
  StronglySorted (fun a b => (f a <= f b)%nat) l ->
  List.Forall (fun a => In (f a) rs) l ->
  blocks f rs l = l.
Proof.
  intros Hrs Hs. induction Hs as [|a l Hs IH Hall]; intros Hin.
  - apply blocks_nil.
  - inversion Hin as [|? ? Ha Hl]; subst.
    rewrite (blocks_cons_least rs a l Hrs Ha Hall). f_equal. now apply IH.
Qed.

End SortedBlocks.

Lemma places_sorted : StronglySorted lt places.
Proof. unfold places. repeat constructor; lia. Qed.

Lemma place_of_bound (a : Attribute) : (place_of a <= 7)%nat.
Proof.
  unfold place_of, rank.
  repeat match goal with
  | |- context [HasPrefix ?k ?p] => destruct (HasPrefix k p)
  end; lia.
Qed.

Lemma placed_in_places (a : Attribute) :
  place_of a <> 7%nat -> In (place_of a) places.
Proof.
  intros H. pose proof (place_of_bound a) as B. unfold places. simpl.
  destruct (place_of a) as [|[|[|[|[|[|[|[|n]]]]]]]]; try tauto; lia.
Qed.

Lemma orderAttrs_is_sorted (attrs : list Attribute) :
  StronglySorted (fun a b => (place_of a <= place_of b)%nat) (orderAttrs attrs).
Proof. rewrite orderAttrs_blocks. apply blocks_sorted, places_sorted. Qed.

Lemma orderAttrs_same (attrs : list Attribute) :
  StronglySorted (fun a b => (place_of a <= place_of b)%nat) attrs ->
  List.Forall (fun a => place_of a <> 7%nat) attrs ->
  orderAttrs attrs = attrs.
Proof.
  intros Hs Hp. rewrite orderAttrs_blocks.
  apply blocks_sorted_same; [apply places_sorted|exact Hs|].
  eapply List.Forall_impl; [|exact Hp]. intros a. apply placed_in_places.
Qed.

(** X1.  The attribute lists that [orderAttrs] leaves as they are, are the
    lists in the order of execution that hold no attribute with the
    prefix "v-" and none of the six directive prefixes. *)
Theorem orderAttrs_fixed_points (attrs : list Attribute) :
  orderAttrs attrs = attrs
  <-> StronglySorted (fun a b => (place_of a <= place_of b)%nat) attrs
      /\ List.Forall (fun a => place_of a <> 7%nat) attrs.
Proof.
  split.
  - intros E. rewrite <- E. split; [apply orderAttrs_is_sorted|].
    apply orderAttrs_placed.
  - intros [Hs Hp]. now apply orderAttrs_same.
Qed.

(** X2.  Ordering twice is ordering once: [orderAttrs] leaves the list
    that it returns as it is. *)
Theorem orderAttrs_idempotent (attrs : list Attribute) :
  orderAttrs (orderAttrs attrs) = orderAttrs attrs.
Proof.
  apply orderAttrs_same; [apply orderAttrs_is_sorted|apply orderAttrs_placed].
Qed.

(** ** The dispatcher: kind and part of a key *)

Lemma splitFrom_colon_none (cur s : string) :
  Contains s ":" = false -> splitFrom ":" 0 cur s = [cur +:+ s].
Proof.
  revert cur. induction s as [|c s IH]; intros cur Hc.
  - simpl. now rewrite append_empty.
  - cbn [Contains] in Hc. apply orb_false_iff in Hc. destruct Hc as [Hc Hs].
    cbn [splitFrom]. rewrite Hc, IH by exact Hs. now rewrite append_one.
Qed.

Lemma part_colon (key p : string) :
  Contains key ":" = false -> Contains p ":" = false ->
  part (key +:+ ":" +:+ p) = p.
Proof.
  intros Hk Hp. unfold part, Split.
  rewrite splitFrom_colon by exact Hk.
  now rewrite splitFrom_colon_none by exact Hp.
Qed.

Lemma part_colon_more (key p more : string) :
  Contains key ":" = false -> Contains p ":" = false ->
  part (key +:+ ":" +:+ p +:+ ":" +:+ more) = p.
Proof.
  intros Hk Hp. unfold part, Split.
  rewrite splitFrom_colon by exact Hk.
  now rewrite splitFrom_colon by exact Hp.
Qed.

Section Dispatch.

Context {host : Host}.

Lemma executeAttr_on (attr : Attribute) (m : Mem) :
  kind (Key attr) = vOn ->
  executeAttr attr m
  = bind (executeAttrOn (part (Key attr)) (Val attr)) (fun _ => ret ([], false)) m.
Proof.
  intros Hk. unfold executeAttr.
  change (default "" (Split (Key attr) ":" !! 0%nat)) with (kind (Key attr)).
  now rewrite Hk.
Qed.

(** X3.  [v-on:event] never fails: the node gets the attribute [event]
    with the method name for value, after the attributes it has, the
    handler is registered for [event] after the listeners there are,
    and the dispatch returns (nil, false).  What follows a second colon
    in the key is dropped. *)
Theorem executeAttr_on_event (event method : string) (m : Mem) :
  Contains event ":" = false ->
  let m' := mkMem (mkElem (Data (node m))
                          (Attr (node m) ++ [mkAttr event method])
                          (Children (node m)))
                  (place m) (sub m)
                  (mkWorld (id (world m)) (data (world m))
                           (listeners (world m) ++ [(event, HOn)])) in
  executeAttr (mkAttr (vOn +:+ ":" +:+ event) method) m = (m', Ok ([], false))
  /\ forall more,
       executeAttr (mkAttr (vOn +:+ ":" +:+ event +:+ ":" +:+ more) method) m
       = (m', Ok ([], false)).
Proof.
  intros He m'. split; [|intros more].
  - rewrite executeAttr_on by (apply kind_colon; reflexivity).
    cbn [Key Val]. rewrite part_colon by (reflexivity || exact He). reflexivity.
  - rewrite executeAttr_on by (apply kind_colon; reflexivity).
    cbn [Key Val]. rewrite part_colon_more by (reflexivity || exact He). reflexivity.
Qed.

(** X4.  [v-bind:name] on a field that the context holds, for a name that
    is no property of a subcomponent: a boolean [false] leaves the node
    as it is, without the attribute; every other value appends the
    attribute [name] with the value as [%v] prints it, so [true] gives
    [name="true"].  Nothing else changes and the dispatch returns
    (nil, false). *)
Theorem executeAttr_bind_emits (name value : string) (field : Value) (m : Mem) :
  Contains name ":" = false ->
  data (world m) !! value = Some field ->
  hasProp (sub m) (Title name) = false ->
  executeAttr (mkAttr (vBind +:+ ":" +:+ name) value) m
  = (match field with
     | VBool false => m
     | _ => withAttr (Attr (node m) ++ [mkAttr name (fmtV field)]) m
     end, Ok ([], false))
  /\ fmtV (VBool true) = "true".
Proof.
  intros Hn Hd Hp. split; [|reflexivity].
  rewrite executeAttr_bind by (apply kind_colon; reflexivity).
  cbn [Key Val]. change (default "" (Split (vBind +:+ ":" +:+ name) ":" !! 1%nat))
    with (part (vBind +:+ ":" +:+ name)).
  rewrite part_colon by (reflexivity || exact Hn).
  unfold executeAttrBind, bind, get, ret, appendAttr, modify. rewrite Hd, Hp.
  destruct field as [s|[|]|z|l|o]; reflexivity.
Qed.

(** X5.  [v-bind:name] for a name that is a property of the subcomponent
    made from the element: the value goes to the property and the node
    gets no attribute; its attributes, children and place and the
    shared state stay as they are. *)
Theorem executeAttr_bind_prop (name value : string) (field : Value) (s : Comp)
    (m : Mem) :
  Contains name ":" = false ->
  data (world m) !! value = Some field ->
  sub m = Some s ->
  hasProp (Some s) (Title name) = true ->
  executeAttr (mkAttr (vBind +:+ ":" +:+ name) value) m
  = (mkMem (node m) (place m) (Some (setProp s (Title name) field)) (world m),
     Ok ([], false)).
Proof.
  intros Hn Hd Hs Hp.
  rewrite executeAttr_bind by (apply kind_colon; reflexivity).
  cbn [Key Val]. change (default "" (Split (vBind +:+ ":" +:+ name) ":" !! 1%nat))
    with (part (vBind +:+ ":" +:+ name)).
  rewrite part_colon by (reflexivity || exact Hn).
  unfold executeAttrBind, bind, get, ret, modify. rewrite Hd, Hs, Hp. reflexivity.
Qed.

End Dispatch.

(** ** The dispatcher: html, if, and what a dispatch can do *)

Section DispatchMore.

Context {host : Host}.

Lemma executeAttr_html (field : string) (m : Mem) :
  executeAttr (mkAttr vHtml field) m
  = bind (executeAttrHtml field) (fun _ => ret ([], false)) m.
Proof. reflexivity. Qed.

(** X6.  [v-html] on a string field appends the nodes that the parser
    returns for the string after the children that the node has, in
    their order, and changes nothing else; on a field of another type
    it panics with "data field is not of type string", and when the
    parser fails with the error of the parser, the memory as it was. *)
Theorem executeAttr_html_appends (field : string) (m : Mem) :
  (forall html nodes,
     data (world m) !! field = Some (VString html) ->
     ParseFragment html = Some nodes ->
     executeAttr (mkAttr vHtml field) m
     = (withChildren (Children (node m) ++ nodes) m, Ok ([], false)))
  /\ (forall html,
        data (world m) !! field = Some (VString html) ->
        ParseFragment html = None ->
        executeAttr (mkAttr vHtml field) m
        = (m, Panic (Foreign "html.ParseFragment")))
  /\ (forall x,
        data (world m) !! field = Some x ->
        (forall html, x <> VString html) ->
        executeAttr (mkAttr vHtml field) m = (m, Panic NotOfTypeString)).
Proof.
  rewrite executeAttr_html. split; [|split].
  - intros html nodes Hd Hp. unfold bind at 1. unfold executeAttrHtml.
    unfold bind at 1, get. rewrite Hd. unfold bind at 1, parseNodes.
    rewrite Hp. unfold ret at 1. rewrite forEach_AppendChild. reflexivity.
  - intros html Hd Hp. unfold bind at 1. unfold executeAttrHtml.
    unfold bind at 1, get. rewrite Hd. unfold bind at 1, parseNodes.
    rewrite Hp. reflexivity.
  - intros x Hd Hx. unfold bind at 1. unfold executeAttrHtml.
    unfold bind at 1, get. rewrite Hd.
    destruct x as [s| | | |]; try reflexivity. now destruct (Hx s).
Qed.

(** X7.  [v-if] keeps the node for the boolean [true] alone: for every
    other value that the context holds (the string "true", a number,
    a slice) the node is removed from its parent, as for [false], and
    the dispatch returns the former next sibling and [true]. *)
Theorem executeAttr_if_other_value (field : string) (x : Value) (m : Mem) :
  data (world m) !! field = Some x ->
  x <> VBool true ->
  attached (place m) = true ->
  executeAttr (mkAttr vIf field) m = (detached m, Ok (nexts (place m), true)).
Proof.
  intros Hd Hx Hat. rewrite executeAttr_if, executeAttrIf_eq, Hd, Hat.
  unfold NextSibling. rewrite Hat.
  destruct x as [s|[|]|z|l|o]; try reflexivity. now destruct Hx.
Qed.

Ltac show_kept :=
  unfold kept; simpl; repeat split;
  first [ eexists; reflexivity
        | exists []; now rewrite app_nil_r
        | rewrite <- app_assoc; eexists; reflexivity ].

Lemma kept_same (m : Mem) : kept m m.
Proof. show_kept. Qed.

Lemma executeAttrBind_kept (key value : string) (m m' : Mem) (u : unit) :
  executeAttrBind key value m = (m', Ok u) -> kept m m'.
Proof.
  unfold executeAttrBind, bind, get, must, panic, ret, modify, appendAttr.
  intros H.
  destruct (data (world m) !! value) as [field|]; [|discriminate].
  destruct (hasProp (sub m) (Title key)).
  - destruct (sub m); [|discriminate]. injection H as <- _. show_kept.
  - destruct field as [s|[|]|z|l|o]; injection H as <- _; show_kept.
Qed.

Lemma executeAttrHtml_kept (field : string) (m m' : Mem) (u : unit) :
  executeAttrHtml field m = (m', Ok u) -> kept m m'.
Proof.
  unfold executeAttrHtml. unfold bind at 1, get.
  destruct (data (world m) !! field) as [[html| | | |]|];
    try (unfold must, panic; discriminate).
  unfold bind at 1, parseNodes.
  destruct (ParseFragment html) as [nodes|]; [|unfold must, panic; discriminate].
  unfold ret at 1. rewrite forEach_AppendChild. intros H. injection H as <- _.
  show_kept.
Qed.

Lemma executeAttrModel_kept (field : string) (m m' : Mem) (u : unit) :
  executeAttrModel field m = (m', Ok u) -> kept m m'.
Proof.
  unfold executeAttrModel, bind, get, must, panic, ret, modify, appendAttr,
    addEventListener. simpl. intros H.
  destruct (data (world m) !! field) as [[val| | | |]|]; try discriminate.
  injection H as <- _. show_kept.
Qed.

Lemma executeAttrOn_kept (typ method : string) (m m' : Mem) (u : unit) :
  executeAttrOn typ method m = (m', Ok u) -> kept m m'.
Proof.
  unfold executeAttrOn, bind, modify, appendAttr, addEventListener. simpl.
  intros H. injection H as <- _. show_kept.
Qed.

Lemma executeAttrFor_modified (value : string) (m m' : Mem) (r : Ptr * bool) :
  executeAttrFor value m = (m', Ok r) -> snd r = true.
Proof.
  unfold executeAttrFor. unfold bind at 1. unfold forNames.
  destruct (Split value "in" !! 0%nat) as [v0|];
    [destruct (Split value "in" !! 1%nat) as [v1|]|];
    try (unfold panic; discriminate).
  unfold ret at 1. cbn [fst snd]. unfold bind at 1, get.
  destruct (data (world m) !! TrimSpace v1) as [slice|];
    [|unfold must, panic; discriminate].
  destruct (Render (Element (node m))) as [elem|];
    [|unfold must, panic; discriminate].
  destruct (elements slice) as [values|]; [|unfold panic; discriminate].
  unfold bind at 1.
  destruct (forLoop_world (TrimSpace v0) elem values "" m) as [w' [buf E]].
  rewrite E. unfold bind at 1, parseNodes.
  destruct (ParseFragment buf) as [nodes|]; [|unfold must, panic; discriminate].
  unfold ret at 1. unfold bind at 1.
  destruct (forEach nodes InsertBefore (withWorld w' m)) as [m1 [u|err|]];
    try discriminate.
  unfold bind at 1. destruct (RemoveChild m1) as [m2 [u'|err|]]; try discriminate.
  unfold bind, get. destruct nodes as [|n nodes]; [unfold panic; discriminate|].
  unfold ret. intros H. now injection H as _ <-.
Qed.

Lemma executeAttr_outcome (attr : Attribute) (m m' : Mem) (next : Ptr)
    (modified : bool) :
  executeAttr attr m = (m', Ok (next, modified)) ->
  (modified = true -> kind (Key attr) = vFor \/ kind (Key attr) = vIf)
  /\ (modified = false -> next = [] /\ kept m m').
Proof.
  unfold executeAttr.
  change (default "" (Split (Key attr) ":" !! 0%nat)) with (kind (Key attr)).
  destruct (String.eqb_spec (kind (Key attr)) vBind) as [_|_].
  { unfold bind. destruct (executeAttrBind _ _ m) as [m1 [u| |]] eqn:E;
      try discriminate. unfold ret. intros H. injection H as <- <- <-.
    split; [discriminate|]. intros _. split; [reflexivity|].
    eapply executeAttrBind_kept, E. }
  destruct (String.eqb_spec (kind (Key attr)) vFor) as [Hf|_].
  { intros H. split; [now left|]. intros ->.
    apply executeAttrFor_modified in H. discriminate H. }
  destruct (String.eqb_spec (kind (Key attr)) vHtml) as [_|_].
  { unfold bind. destruct (executeAttrHtml _ m) as [m1 [u| |]] eqn:E;
      try discriminate. unfold ret. intros H. injection H as <- <- <-.
    split; [discriminate|]. intros _. split; [reflexivity|].
    eapply executeAttrHtml_kept, E. }
  destruct (String.eqb_spec (kind (Key attr)) vIf) as [Hi|_].
  { intros H. split; [now right|]. intros ->.
    rewrite executeAttrIf_eq in H.
    destruct (data (world m) !! Val attr) as [[s|[|]|z|l|o]|];
      destruct (attached (place m)); try discriminate H.
    all: injection H as <- <-; split; [reflexivity|apply kept_same]. }
  destruct (String.eqb_spec (kind (Key attr)) vModel) as [_|_].
  { unfold bind. destruct (executeAttrModel _ m) as [m1 [u| |]] eqn:E;
      try discriminate. unfold ret. intros H. injection H as <- <- <-.
    split; [discriminate|]. intros _. split; [reflexivity|].
    eapply executeAttrModel_kept, E. }
  destruct (String.eqb_spec (kind (Key attr)) vOn) as [_|_].
  { unfold bind. destruct (executeAttrOn _ _ m) as [m1 [u| |]] eqn:E;
      try discriminate. unfold ret. intros H. injection H as <- <- <-.
    split; [discriminate|]. intros _. split; [reflexivity|].
    eapply executeAttrOn_kept, E. }
  unfold must, panic. discriminate.
Qed.

(** X8.  What a dispatch can do.  Only [v-for] and [v-if] return the
    signal [true].  A dispatch that returns [false] returns the nil
    pointer and leaves the node where it hangs, under its tag name,
    with the attributes and children it had in their order: attributes
    and children are added after them at most, none is removed. *)
Theorem executeAttr_signal (attr : Attribute) (m m' : Mem) (next : Ptr)
    (modified : bool) :
  executeAttr attr m = (m', Ok (next, modified)) ->
  (modified = true -> kind (Key attr) = vFor \/ kind (Key attr) = vIf)
  /\ (modified = false -> next = [] /\ kept m m').
Proof. apply executeAttr_outcome. Qed.

End DispatchMore.

(** ** The loop directive *)

Section Loop.

Context {host : Host}.

Lemma executeAttr_for (value : string) (m : Mem) :
  executeAttr (mkAttr vFor value) m = executeAttrFor value m.
Proof. reflexivity. Qed.

(** X9.  The failures of [v-for].  An expression without "in" panics with
    index out of range at [vals[1]], whatever the context holds; a
    failure of the serializer is passed on; a field that holds a bool
    or an integer panics in [reflect], at [values.Len()].  In each
    case the memory is as it was: no key is bound, the node stays
    where it hangs. *)
Theorem executeAttrFor_failures (value : string) (m : Mem) :
  (Contains value "in" = false ->
     executeAttr (mkAttr vFor value) m = (m, Panic IndexOutOfRange))
  /\ (forall name field slice,
        forNames value m = (m, Ok (name, field)) ->
        data (world m) !! field = Some slice ->
        Render (Element (node m)) = None ->
        executeAttr (mkAttr vFor value) m = (m, Panic (Foreign "html.Render")))
  /\ (forall name field slice elem,
        forNames value m = (m, Ok (name, field)) ->
        data (world m) !! field = Some slice ->
        Render (Element (node m)) = Some elem ->
        (exists b, slice = VBool b) \/ (exists z, slice = VInt z) ->
        executeAttr (mkAttr vFor value) m = (m, Panic ReflectPanic)).
Proof.
  rewrite executeAttr_for. split; [|split].
  - intros Hc. unfold executeAttrFor. unfold bind at 1. unfold forNames, Split.
    rewrite splitFrom_in_none by exact Hc. reflexivity.
  - intros name field slice Hn Hd Hr. unfold executeAttrFor. unfold bind at 1.
    rewrite Hn. cbn [fst snd]. unfold bind at 1, get. now rewrite Hd, Hr.
  - intros name field slice elem Hn Hd Hr He.
    assert (Hl : elements slice = None) by (now destruct He as [[b ->]|[z ->]]).
    unfold executeAttrFor.
    unfold bind at 1. rewrite Hn. cbn [fst snd]. unfold bind at 1, get.
    now rewrite Hd, Hr, Hl.
Qed.

Lemma incr64_small (i : Z) :
  - 2 ^ 63 <= i + 1 < 2 ^ 63 -> incr64 i = i + 1.
Proof.
  intros H. unfold incr64.
  rewrite Z.mod_small by lia. lia.
Qed.

Lemma loopKey_next (name : string) (i0 : Z) (k : nat) :
  loopKey name (i0 + 1) k = loopKey name i0 (S k).
Proof. unfold loopKey. f_equal. f_equal. lia. Qed.

Lemma loopKey_inj (name : string) (i0 : Z) (j k : nat) :
  loopKey name i0 j = loopKey name i0 k -> j = k.
Proof.
  unfold loopKey. intros H. apply key_same_name_inj in H. lia.
Qed.

Lemma loopCopies_next (name elem : string) (i0 : Z) (k n : nat) :
  loopCopies name elem (i0 + 1) k n = loopCopies name elem i0 (S k) n.
Proof.
  revert k. induction n as [|n IH]; intros k; [reflexivity|].
  cbn [loopCopies]. now rewrite loopKey_next, IH.
Qed.

Lemma append_assoc (a b c : string) : (a +:+ b) +:+ c = a +:+ b +:+ c.
Proof.
  induction a as [|x a IH]; [reflexivity|].
  rewrite !append_String. now f_equal.
Qed.

(** What the loop of [v-for] leaves, as long as the counter does not
    leave the range of [int64]. *)
Lemma forLoop_spec (name elem : string) (values : list Value) (buf : string)
    (m : Mem) :
  0 <= id (world m) ->
  id (world m) + Z.of_nat (length values) < 2 ^ 63 ->
  exists d' : gmap string Value,
    forLoop name elem values buf m
    = (withWorld (mkWorld (id (world m) + Z.of_nat (length values)) d'
                          (listeners (world m))) m,
       Ok (buf +:+ loopCopies name elem (id (world m)) 0 (length values)))
    /\ (forall k x, values !! k = Some x ->
          d' !! loopKey name (id (world m)) k = Some x)
    /\ (forall key,
          (forall k, (k < length values)%nat -> key <> loopKey name (id (world m)) k) ->
          d' !! key = data (world m) !! key).
Proof.
  revert buf m. induction values as [|x values IH]; intros buf m H0 Hmax.
  - exists (data (world m)). cbn [forLoop length loopCopies]. unfold ret.
    rewrite Z.add_0_r, append_empty.
    split; [now destruct m as [n p s [i d l]]|]. split; [|reflexivity].
    intros k y Hk. discriminate Hk.
  - cbn [forLoop]. unfold bind at 1, get. unfold bind at 1, modify.
    cbn [length] in Hmax.
    set (i0 := id (world m)) in *.
    set (m1 := withWorld _ m).
    assert (Hid : id (world m1) = i0 + 1)
      by (unfold m1; simpl; fold i0; apply incr64_small; lia).
    destruct (IH (buf +:+ Replace elem name (name +:+ pretty i0)) m1)
      as [d' [E [Hb Hf]]]; [lia|lia|].
    rewrite Hid in E, Hb, Hf.
    exists d'. split; [|split].
    + rewrite E. unfold m1, withWorld. simpl. f_equal; [|f_equal].
      * f_equal. f_equal. lia.
      * cbn [length loopCopies]. rewrite append_assoc, loopCopies_next.
        unfold loopKey. now rewrite Z.add_0_r.
    + intros [|k] y Hk.
      * injection Hk as ->. rewrite Hf.
        -- unfold m1. simpl. fold i0. unfold loopKey. rewrite Z.add_0_r.
           apply lookup_insert_eq.
        -- intros k Hk E'. rewrite loopKey_next in E'.
           apply loopKey_inj in E'. discriminate E'.
      * rewrite <- loopKey_next. apply Hb. exact Hk.
    + intros key Hkey. rewrite Hf.
      * unfold m1. simpl. fold i0. apply lookup_insert_ne.
        intros E'. apply (Hkey 0%nat); [cbn [length]; lia|].
        unfold loopKey. now rewrite Z.add_0_r.
      * intros k Hk. rewrite loopKey_next. apply Hkey. cbn [length]. lia.
Qed.

Lemma forLoop_cons (name elem : string) (x : Value) (values : list Value)
    (buf : string) (m : Mem) :
  forLoop name elem (x :: values) buf m
  = forLoop name elem values
      (buf +:+ Replace elem name (name +:+ pretty (id (world m))))
      (withWorld (mkWorld (incr64 (id (world m)))
                          (<[name +:+ pretty (id (world m)) := x]> (data (world m)))
                          (listeners (world m))) m).
Proof. reflexivity. Qed.

(** The loop of [v-for] removes no key, and touches the listeners as
    little as the node. *)
Lemma forLoop_keeps (name elem : string) (values : list Value) (buf : string)
    (m : Mem) :
  (forall key, is_Some (data (world m) !! key) ->
     is_Some (data (world (fst (forLoop name elem values buf m))) !! key))
  /\ listeners (world (fst (forLoop name elem values buf m))) = listeners (world m).
Proof.
  revert buf m. induction values as [|x values IH]; intros buf m.
  - split; [tauto|reflexivity].
  - rewrite forLoop_cons.
    match goal with |- context [forLoop _ _ _ ?b ?m1] =>
      destruct (IH b m1) as [Hk Hl] end.
    split; [|exact Hl].
    intros key Hkey. apply Hk. simpl.
    apply lookup_insert_is_Some'. now right.
Qed.

(** X10.  The loop of [v-for] over [n] elements, while the counter stays in
    the range of [int64]: the counter advances by [n]; the element at
    index [k] is bound to the key made of the loop variable and the
    counter value [i0 + k]; every other key of the context is as it
    was, so no key is removed; and the buffer receives, in order, one
    copy of the rendered node per element, the loop variable replaced
    by the key. *)
Theorem forLoop_binds (name elem : string) (values : list Value) (buf : string)
    (m : Mem) :
  0 <= id (world m) ->
  id (world m) + Z.of_nat (length values) < 2 ^ 63 ->
  let m' := fst (forLoop name elem values buf m) in
  snd (forLoop name elem values buf m)
    = Ok (buf +:+ loopCopies name elem (id (world m)) 0 (length values))
  /\ id (world m') = id (world m) + Z.of_nat (length values)
  /\ (forall k x, values !! k = Some x ->
        data (world m') !! loopKey name (id (world m)) k = Some x)
  /\ (forall key,
        (forall k, (k < length values)%nat -> key <> loopKey name (id (world m)) k) ->
        data (world m') !! key = data (world m) !! key)
  /\ (forall key, is_Some (data (world m) !! key) -> is_Some (data (world m') !! key))
  /\ node m' = node m /\ place m' = place m
  /\ listeners (world m') = listeners (world m).
Proof.
  intros H0 Hmax m'.
  destruct (forLoop_spec name elem values buf m H0 Hmax) as [d' [E [Hb Hf]]].
  subst m'. rewrite E. cbn [fst snd withWorld world id data listeners node place].
  split; [reflexivity|]. split; [reflexivity|]. split; [exact Hb|].
  split; [exact Hf|]. split; [|now repeat split].
  pose proof (forLoop_keeps name elem values buf m) as K.
  rewrite E in K. exact (proj1 K).
Qed.

End Loop.

(** ** The loop directive: the nodes it puts in place of the node *)

Section LoopSplice.

Context {host : Host}.

(** X11.  [v-for] over a sequence for which the parser returns a node at
    least, for a node that has a parent: the produced nodes stand, in
    their order, where the node stood among the children of the
    parent, between the siblings it had; the node has no parent any
    more and is otherwise as it was; the dispatch returns the first
    produced node and [true]; the shared state is what the loop
    left. *)
Theorem executeAttrFor_replaces (value name field elem : string) (slice : Value)
    (values : list Value) (n : Node) (nodes : list Node) (m : Mem) :
  forNames value m = (m, Ok (name, field)) ->
  data (world m) !! field = Some slice ->
  Render (Element (node m)) = Some elem ->
  elements slice = Some values ->
  attached (place m) = true ->
  (forall buf, snd (forLoop name elem values "" m) = Ok buf ->
     ParseFragment buf = Some (n :: nodes)) ->
  let m' := fst (executeAttr (mkAttr vFor value) m) in
  snd (executeAttr (mkAttr vFor value) m)
    = Ok ((n :: nodes) ++ nexts (place m), true)%list
  /\ siblings (Element (node m')) (place m')
     = (prevs (place m) ++ (n :: nodes) ++ nexts (place m))%list
  /\ attached (place m') = false
  /\ node m' = node m
  /\ world m' = world (fst (forLoop name elem values "" m)).
Proof.
  intros Hn Hd Hr He Hat Hp m'.
  destruct (executeAttrFor_splice value name field elem slice values m
              Hn Hd Hr He Hat) as [w' [buf [E Hs]]].
  rewrite E in Hp. specialize (Hs (n :: nodes) (Hp buf eq_refl)).
  subst m'. rewrite executeAttr_for, Hs, E. cbn.
  unfold siblings. cbn. rewrite <- app_assoc. now repeat split.
Qed.

End LoopSplice.

(** ** The attributes of a node under the loop of the dispatcher *)

(** X12.  [deleteAttr] at an index within the list: the attributes before
    the index stay at their index, those after it move down by one, and
    the list is shorter by one; so the order of the others is
    preserved. *)
Theorem deleteAttr_lookup (attrs : list Attribute) (i : nat) :
  (i < length attrs)%nat ->
  length (deleteAttr attrs i) = (length attrs - 1)%nat
  /\ (forall j, (j < i)%nat -> deleteAttr attrs i !! j = attrs !! j)
  /\ (forall j, (i <= j)%nat -> deleteAttr attrs i !! j = attrs !! S j).
Proof.
  intros Hi. unfold deleteAttr. split; [|split].
  - rewrite length_app, length_take, length_drop. lia.
  - intros j Hj. rewrite lookup_app_l by (rewrite length_take; lia).
    now apply lookup_take_lt.
  - intros j Hj. rewrite lookup_app_r by (rewrite length_take; lia).
    rewrite length_take, lookup_drop. f_equal. lia.
Qed.

(** ** The traversal on nodes without directives *)

Section Inert.

Context {host : Host}.

Lemma plain_place (a : Attribute) : plain a = true -> place_of a = 6%nat.
Proof.
  intros H. destruct (ranked_prefix a) as (_ & _ & _ & _ & _ & _ & R).
  unfold plain in H. rewrite H in R. symmetry in R.
  now apply Nat.eqb_eq in R.
Qed.

Lemma orderAttrs_plain (attrs : list Attribute) :
  List.Forall (fun a => plain a = true) attrs -> orderAttrs attrs = attrs.
Proof.
  intros H. apply orderAttrs_same.
  - induction H as [|a l Ha Hl IH]; constructor; [exact IH|].
    eapply List.Forall_impl; [|exact Hl]. intros b Hb. cbn beta.
    rewrite (plain_place a Ha), (plain_place b Hb). lia.
  - eapply List.Forall_impl; [|exact H]. intros a Ha.
    rewrite (plain_place a Ha). lia.
Qed.

(** The loop over the attributes of a node without directives ends
    with the memory as it was. *)
Lemma executeAttrs_plain (fuel i : nat) (m : Mem) :
  List.Forall (fun a => plain a = true) (Attr (node m)) ->
  (length (Attr (node m)) - i < fuel)%nat ->
  executeAttrs fuel i m = (m, Ok None).
Proof.
  intros Hp. revert i. induction fuel as [|fuel IH]; intros i Hf; [lia|].
  destruct (Attr (node m) !! i) as [a|] eqn:Hi.
  - assert (Ha : plain a = true).
    { rewrite List.Forall_forall in Hp. apply Hp.
      apply list_elem_of_In. eapply list_elem_of_lookup_2, Hi. }
    unfold plain in Ha. apply negb_true_iff in Ha.
    rewrite (executeAttrs_skip fuel i m a Hi Ha). apply IH.
    apply lookup_lt_Some in Hi. lia.
  - now apply executeAttrs_end.
Qed.

Lemma weight_in (c : Node) (kids : list Node) :
  In c kids -> (weight c <= list_sum (map weight kids))%nat.
Proof.
  induction kids as [|k kids IH]; intros H; [destruct H|].
  change (list_sum (map weight (k :: kids)))
    with (weight k + list_sum (map weight kids))%nat.
  destruct H as [->|H]; [lia|]. specialize (IH H). lia.
Qed.

(** The loop over children whose execution leaves them as they are. *)
Lemma executeChildren_same (exec : Node -> Place -> World -> Res Visit)
    (fuel : nat) (done rest : list Node) (w : World) :
  (forall c p, In c rest -> exec c p w = Ok (c, p, w, NextSibling p)) ->
  (length rest < fuel)%nat ->
  executeChildren exec fuel (done ++ rest) rest w = Ok ((done ++ rest)%list, w).
Proof.
  revert done rest. induction fuel as [|fuel IH]; intros done rest Hx Hf; [lia|].
  destruct rest as [|c rest]; [reflexivity|].
  cbn [executeChildren]. rewrite before_app.
  rewrite (Hx c _ (or_introl eq_refl)).
  unfold siblings, NextSibling. cbn [attached prevs nexts].
  change (done ++ [c] ++ rest)%list with (done ++ c :: rest)%list.
  replace (done ++ c :: rest)%list with ((done ++ [c]) ++ rest)%list
    by (now rewrite <- app_assoc).
  apply IH.
  - intros k p Hk. apply Hx. now right.
  - cbn [length] in Hf. lia.
Qed.

(** The execution of a tree without directives and subcomponents. *)
Lemma executeElement_inert (fuel : nat) (n : Node) (p : Place) (w : World) :
  inert n = true ->
  (weight n <= fuel)%nat ->
  executeElement fuel n p w = Ok (n, p, w, NextSibling p).
Proof.
  revert n p w. induction fuel as [|fuel IH]; intros n p w Hi Hw.
  - destruct n; cbn [weight] in Hw; lia.
  - destruct n as [[tag attrs kids]|content|content]; try reflexivity.
    cbn [inert Attr Data Children] in Hi.
    apply andb_true_iff in Hi. destruct Hi as [Hi Hk].
    apply andb_true_iff in Hi. destruct Hi as [Ha Hs].
    apply forallb_Forall in Ha, Hk.
    cbn [weight Attr Children] in Hw.
    rewrite executeElement_element. cbn [Attr Data Children].
    rewrite (orderAttrs_plain attrs Ha).
    rewrite executeAttrs_plain by (cbn [node Attr]; first [exact Ha | lia]).
    cbn [sub node Children world Data Attr place].
    destruct (newSub tag); [discriminate|].
    rewrite (executeChildren_same (executeElement fuel) fuel [] kids w).
    + reflexivity.
    + intros c q Hc. apply IH.
      * rewrite List.Forall_forall in Hk. now apply Hk.
      * pose proof (weight_in c kids Hc). lia.
    + lia.
Qed.

(** X13.  Markup without directives, subcomponents and placeholders passes
    through the engine as it is: with a mustache engine that renders a
    text without placeholder as it is, and fuel for the size of the
    tree, [execute] returns the parsed nodes under the root
    placeholder, and the counter, the context and the listeners as
    they were. *)
Theorem execute_inert (fuel : nat) (tmpl : string) (nodes : list Node)
    (w : World) :
  keepsPlainText ->
  newSub "" = None ->
  ParseFragment tmpl = Some nodes ->
  forallb inert nodes = true ->
  forallb rendered nodes = true ->
  (weight (Element (mkElem "" [] nodes)) <= fuel)%nat ->
  execute fuel tmpl w = Ok (Element (mkElem "" [] nodes), w).
Proof.
  intros Hm Hs Hp Hi Hr Hw. unfold execute, parseNode. rewrite Hp.
  rewrite executeElement_inert; [| |exact Hw].
  - cbn [data]. rewrite executeText_rendered; [reflexivity|exact Hm|exact Hr].
  - cbn [inert Attr Data Children forallb]. now rewrite Hs, Hi.
Qed.

(** X14.  An element that is a subcomponent, without directives, with a
    parent: the children of the node that the execution of the
    subcomponent returns stand, in their order, where the element
    stood; the element itself is out of the tree with the children it
    had, which are not executed; the traversal goes on at the former
    next sibling, so that the nodes of the subcomponent are not
    executed a second time.  Without a parent the execution panics. *)
Theorem executeElement_subcomponent (fuel : nat) (e : Elem Node) (p : Place)
    (w : World) (s : Comp) (subNode : Node) :
  forallb plain (Attr e) = true ->
  newSub (Data e) = Some s ->
  executeSub s = Ok subNode ->
  (length (Attr e) < fuel)%nat ->
  (attached p = true ->
     executeElement (S fuel) (Element e) p w
     = Ok (Element e, mkPlace false (prevs p ++ children subNode) (nexts p),
           w, nexts p))
  /\ (attached p = false ->
      executeElement (S fuel) (Element e) p w = Panic NilDereference).
Proof.
  intros Ha Hs Hx Hf. apply forallb_Forall in Ha.
  assert (E : forall q, executeElement (S fuel) (Element e) q w
              = match spliceSub subNode (mkMem e q (Some s) w) with
                | (m', Ok next) => Ok (Element (node m'), place m', world m', next)
                | (_, Panic err) => Panic err
                | (_, OutOfFuel) => OutOfFuel
                end).
  { intros q. rewrite executeElement_element, (orderAttrs_plain _ Ha).
    rewrite executeAttrs_plain by (cbn [node Attr]; first [exact Ha | lia]).
    cbn [sub]. rewrite Hs, Hx. now destruct e. }
  split; intros Hat; rewrite E; unfold spliceSub; unfold bind at 1.
  - rewrite forEach_InsertBefore by exact Hat.
    unfold bind at 1, get. unfold bind at 1, RemoveChild. unfold bind at 1, get.
    cbn. reflexivity.
  - rewrite forEach_InsertBefore_nil by exact Hat.
    destruct (children subNode); [|reflexivity].
    unfold bind at 1, get. unfold bind at 1, RemoveChild. unfold bind at 1, get.
    cbn [place]. now rewrite Hat.
Qed.

End Inert.

(** ** The traversal on nodes with directives *)

Section Directives.

Context {host : Host}.

Lemma filter_plain_deleteAttr (attrs : list Attribute) (i : nat) (a : Attribute) :
  attrs !! i = Some a ->
  plain a = false ->
  List.filter plain (deleteAttr attrs i) = List.filter plain attrs.
Proof.
  intros Hi Ha. unfold deleteAttr.
  rewrite <- (take_drop_middle attrs i a Hi) at 3.
  rewrite !List.filter_app. cbn [List.filter]. now rewrite Ha.
Qed.

Lemma filter_plain_all (attrs : list Attribute) :
  List.Forall (fun a => plain a = true) attrs -> List.filter plain attrs = attrs.
Proof.
  induction 1 as [|a l Ha Hl IH]; [reflexivity|].
  cbn [List.filter]. now rewrite Ha, IH.
Qed.

Lemma filter_plain_orderAttrs (attrs : list Attribute) :
  List.filter plain (orderAttrs attrs) = List.filter plain attrs.
Proof.
  assert (E : forall l, List.filter plain l = List.filter (inClass place_of 6) l).
  { intros l. apply List.filter_ext. intros a.
    destruct (ranked_prefix a) as (_ & _ & _ & _ & _ & _ & R). exact R. }
  rewrite !E, orderAttrs_blocks.
  apply blocks_class; [apply places_NoDup|]. unfold places. simpl. tauto.
Qed.

(** The loop over the attributes, when it ends: the node hangs where
    it did, under its tag name; its attributes are those that were no
    directives, in their order, and then what the directives added; its
    children are those it had, and then what the directives added. *)
Lemma executeAttrs_front (fuel i : nat) (m m' : Mem) :
  List.Forall (fun a => plain a = true) (firstn i (Attr (node m))) ->
  executeAttrs fuel i m = (m', Ok None) ->
  place m' = place m
  /\ Data (node m') = Data (node m)
  /\ (exists extra,
        Attr (node m') = (List.filter plain (Attr (node m)) ++ extra)%list)
  /\ (exists more, Children (node m') = (Children (node m) ++ more)%list).
Proof.
  revert i m. induction fuel as [|fuel IH]; intros i m Hpre H; [discriminate|].
  destruct (Attr (node m) !! i) as [attr|] eqn:Hi.
  - destruct (HasPrefix (Key attr) v) eqn:Hv.
    + rewrite (executeAttrs_dispatch fuel i m attr Hi Hv) in H.
      destruct (executeAttr attr _) as [m1 [[next [|]]|err|]] eqn:E;
        try discriminate.
      destruct (proj2 (executeAttr_outcome _ _ _ _ _ E) eq_refl)
        as [_ (Hp & Hd & [extra Hx] & [more Hc])].
      cbn [withAttr node place Attr Data Children] in Hp, Hd, Hx, Hc.
      apply IH in H.
      * destruct H as (Hp' & Hd' & [extra' Hx'] & [more' Hc']).
        split; [congruence|]. split; [congruence|]. split.
        -- exists (List.filter plain extra ++ extra')%list.
           rewrite Hx', Hx, List.filter_app, <- app_assoc.
           rewrite (filter_plain_deleteAttr _ i attr Hi); [reflexivity|].
           unfold plain. now rewrite Hv.
        -- exists (more ++ more')%list. now rewrite Hc', Hc, <- app_assoc.
      * rewrite Hx. unfold deleteAttr. rewrite <- app_assoc.
        apply lookup_lt_Some in Hi.
        rewrite take_app_le by (rewrite length_take; lia).
        rewrite take_take. replace (i `min` i)%nat with i by lia. exact Hpre.
    + rewrite (executeAttrs_skip fuel i m attr Hi Hv) in H.
      apply IH in H; [exact H|].
      rewrite (take_S_r _ _ _ Hi). apply List.Forall_app. split; [exact Hpre|].
      constructor; [|constructor]. unfold plain. now rewrite Hv.
  - rewrite (executeAttrs_end fuel i m Hi) in H. injection H as <-.
    apply lookup_ge_None in Hi. rewrite take_ge in Hpre by exact Hi.
    split; [reflexivity|]. split; [reflexivity|]. split.
    + exists []. now rewrite app_nil_r, filter_plain_all.
    + exists []. now rewrite app_nil_r.
Qed.

(** X15.  An element that is still in the tree after its execution: it has
    its tag name and hangs where it did; no directive is left on it;
    the attributes authored on it that are no directives are all there,
    first and in their authored order, followed by the attributes that
    its directives added; the traversal goes on at its next sibling. *)
Theorem executeElement_keeps_plain (fuel : nat) (e : Elem Node) (p p' : Place)
    (w w' : World) (n' : Node) (next : Ptr) :
  executeElement fuel (Element e) p w = Ok (n', p', w', next) ->
  attached p' = true ->
  exists e', n' = Element e'
    /\ Data e' = Data e
    /\ p' = p /\ next = nexts p
    /\ List.Forall (fun a => plain a = true) (Attr e')
    /\ exists extra, Attr e' = (List.filter plain (Attr e) ++ extra)%list.
Proof.
  intros H Hat. destruct fuel as [|fuel]; [discriminate|].
  rewrite executeElement_element in H.
  destruct (executeAttrs fuel 0 _) as [m [[nx|]|err|]] eqn:EA; try discriminate.
  - injection H as <- <- <- <-.
    apply executeAttrs_inv in EA; [|constructor].
    destruct EA as (_ & Hf & _). congruence.
  - pose proof (executeAttrs_inv fuel 0 _ _ _ (List.Forall_nil _) EA) as [Hpl _].
    apply executeAttrs_front in EA; [|constructor].
    cbn [place node Data Attr Children] in EA.
    destruct EA as (Hp & Hd & [extra Hx] & _).
    destruct (sub m) as [s|].
    + destruct (executeSub s) as [subNode|err|]; try discriminate.
      destruct (spliceSub subNode m) as [m' [nx|err|]] eqn:EP; try discriminate.
      injection H as <- <- <- <-.
      apply spliceSub_effect in EP. destruct EP as (_ & Hf & _). congruence.
    + destruct (executeChildren _ _ _ _ _) as [[kids w1]|err|]; try discriminate.
      injection H as <- <- <- <-.
      eexists. split; [reflexivity|]. cbn [Data Attr].
      split; [exact Hd|]. split; [exact Hp|]. split.
      { unfold NextSibling. rewrite Hp in *. now rewrite Hat. }
      split; [exact Hpl|]. exists extra.
      now rewrite Hx, filter_plain_orderAttrs.
Qed.

(** X16.  [v-if] first in the order of execution of an element, on a field
    that is not [true] in the context (absent, [false], or no bool):
    the element leaves the tree with its children, none of its other
    directives is dispatched and none of its children is executed, so
    the counter, the context and the listeners are as they were; the
    traversal goes on at the former next sibling. *)
Theorem executeElement_if_removes (fuel : nat) (e : Elem Node) (p : Place)
    (w : World) (attr : Attribute) (rest : list Attribute) :
  orderAttrs (Attr e) = attr :: rest ->
  kind (Key attr) = vIf ->
  data w !! Val attr <> Some (VBool true) ->
  attached p = true ->
  executeElement (S (S fuel)) (Element e) p w
  = Ok (Element (mkElem (Data e) rest (Children e)),
        mkPlace false (prevs p) (nexts p), w, nexts p).
Proof.
  intros Ho Hk Hd Hat.
  assert (Hv : HasPrefix (Key attr) v = true).
  { apply kind_directive. rewrite Hk. unfold kinds. simpl. tauto. }
  rewrite executeElement_element, Ho.
  erewrite executeAttrs_dispatch; [|reflexivity|exact Hv].
  unfold withAttr, deleteAttr. cbn [node Attr Data Children place sub world].
  cbn [firstn skipn app]. rewrite drop_0.
  unfold executeAttr.
  change (default "" (Split (Key attr) ":" !! 0%nat)) with (kind (Key attr)).
  rewrite Hk. cbn [String.eqb]. change (String.eqb vIf vBind) with false.
  change (String.eqb vIf vFor) with false.
  change (String.eqb vIf vHtml) with false.
  change (String.eqb vIf vIf) with true. cbn iota.
  rewrite executeAttrIf_eq. cbn [world place data].
  rewrite Hat. unfold NextSibling, detached. cbn. rewrite Hat.
  destruct (data w !! Val attr) as [[s|[|]|z|l|o]|]; try reflexivity.
  now destruct Hd.
Qed.

End Directives.

(** ** What the execution shares *)

Lemma grows_refl (w : World) : grows w w.
Proof. split; [tauto|]. exists []. now rewrite app_nil_r. Qed.

Lemma grows_trans (w1 w2 w3 : World) : grows w1 w2 -> grows w2 w3 -> grows w1 w3.
Proof.
  intros [H1 [l1 E1]] [H2 [l2 E2]]. split; [auto|].
  exists (l1 ++ l2)%list. now rewrite E2, E1, <- app_assoc.
Qed.

Section Shared.

Context {host : Host}.

Lemma Grows_ret {A} (a : A) : Grows (ret a).
Proof. intros m. apply grows_refl. Qed.

Lemma Grows_panic {A} (e : Error) : Grows (panic (A := A) e).
Proof. intros m. apply grows_refl. Qed.

Lemma Grows_get : Grows get.
Proof. intros m. apply grows_refl. Qed.

Lemma Grows_modify (f : Mem -> Mem) :
  (forall m, grows (world m) (world (f m))) -> Grows (modify f).
Proof. intros H m. apply H. Qed.

Lemma Grows_bind {A B} (c : M A) (k : A -> M B) :
  Grows c -> (forall a, Grows (k a)) -> Grows (bind c k).
Proof.
  intros Hc Hk m. unfold bind. specialize (Hc m).
  destruct (c m) as [m1 [a|e|]]; cbn [fst] in *; try exact Hc.
  eapply grows_trans; [exact Hc|apply Hk].
Qed.

Ltac grows_step :=
  first [ apply Grows_ret | apply Grows_panic | apply Grows_get
        | apply Grows_modify; intros ?; apply grows_refl
        | apply Grows_bind; [|intros ?]
        | match goal with
          | |- Grows (match ?x with _ => _ end) => destruct x
          end ].

Lemma Grows_addEventListener (typ : string) (h : Handler) :
  Grows (addEventListener typ h).
Proof.
  apply Grows_modify. intros m. split; [tauto|]. now exists [(typ, h)].
Qed.

Lemma Grows_forEach {A} (l : list A) (body : A -> M unit) :
  (forall x, Grows (body x)) -> Grows (forEach l body).
Proof.
  intros H. induction l as [|x l IH]; cbn [forEach]; [apply Grows_ret|].
  apply Grows_bind; [apply H|intros _; exact IH].
Qed.

Lemma Grows_InsertBefore (child : Node) : Grows (InsertBefore child).
Proof. unfold InsertBefore. repeat grows_step. Qed.

Lemma Grows_RemoveChild : Grows RemoveChild.
Proof. unfold RemoveChild. repeat grows_step. Qed.

Lemma Grows_AppendChild (child : Node) : Grows (AppendChild child).
Proof. unfold AppendChild. repeat grows_step. Qed.

Lemma Grows_appendAttr (attr : Attribute) : Grows (appendAttr attr).
Proof. unfold appendAttr. repeat grows_step. Qed.

Lemma Grows_parseNodes (markup : string) : Grows (parseNodes markup).
Proof. unfold parseNodes, must. repeat grows_step. Qed.

Lemma Grows_forLoop (name elem : string) (values : list Value) (buf : string) :
  Grows (forLoop name elem values buf).
Proof.
  revert buf. induction values as [|x values IH]; intros buf; cbn [forLoop];
    [apply Grows_ret|].
  apply Grows_bind; [apply Grows_get|intros m0].
  apply Grows_bind; [|intros _; apply IH].
  apply Grows_modify. intros m. cbn [withWorld world data listeners]. split.
  - intros key Hk. apply lookup_insert_is_Some'. now right.
  - exists []. now rewrite app_nil_r.
Qed.

Lemma Grows_executeAttr (attr : Attribute) : Grows (executeAttr attr).
Proof.
  unfold executeAttr, executeAttrBind, executeAttrFor, forNames,
    executeAttrHtml, executeAttrIf, executeAttrModel, executeAttrOn, must.
  repeat first
    [ apply Grows_addEventListener | apply Grows_appendAttr
    | apply Grows_parseNodes | apply Grows_forLoop | apply Grows_RemoveChild
    | apply Grows_forEach; intros ?;
        first [apply Grows_InsertBefore | apply Grows_AppendChild]
    | grows_step ].
Qed.

Lemma Grows_executeAttrs (fuel i : nat) : Grows (executeAttrs fuel i).
Proof.
  revert i. induction fuel as [|fuel IH]; intros i; cbn [executeAttrs].
  - intros m. apply grows_refl.
  - apply Grows_bind; [apply Grows_get|intros m0].
    destruct (Attr (node m0) !! i) as [attr|]; [|apply Grows_ret].
    destruct (HasPrefix (Key attr) v); [|apply IH].
    apply Grows_bind; [grows_step|intros _].
    apply Grows_bind; [apply Grows_executeAttr|intros r].
    destruct (snd r); [apply Grows_ret|apply IH].
Qed.

Lemma Grows_spliceSub (subNode : Node) : Grows (spliceSub subNode).
Proof.
  unfold spliceSub.
  repeat first
    [ apply Grows_RemoveChild
    | apply Grows_forEach; intros ?; apply Grows_InsertBefore
    | grows_step ].
Qed.

Lemma executeChildren_grows (exec : Node -> Place -> World -> Res Visit)
    (fuel : nat) (kids kids' : list Node) (child : Ptr) (w w' : World) :
  (forall c p w0 c' p' w1 next,
      exec c p w0 = Ok (c', p', w1, next) -> grows w0 w1) ->
  executeChildren exec fuel kids child w = Ok (kids', w') ->
  grows w w'.
Proof.
  intros Hexec. revert kids child w.
  induction fuel as [|fuel IH]; intros kids child w H; [discriminate|].
  cbn [executeChildren] in H. destruct child as [|c rest].
  - injection H as <- <-. apply grows_refl.
  - destruct (exec c _ w) as [[[[c' p'] w1] next]|err|] eqn:E; try discriminate.
    eapply grows_trans; [eapply Hexec, E|]. eapply IH, H.
Qed.

Lemma executeElement_grows (fuel : nat) (n n' : Node) (p p' : Place)
    (w w' : World) (next : Ptr) :
  executeElement fuel n p w = Ok (n', p', w', next) -> grows w w'.
Proof.
  revert n n' p p' w w' next.
  induction fuel as [|fuel IH]; intros n n' p p' w w' next H; [discriminate|].
  destruct n as [e|content|content].
  - rewrite executeElement_element in H.
    pose proof (Grows_executeAttrs fuel 0
      (mkMem (mkElem (Data e) (orderAttrs (Attr e)) (Children e)) p
             (newSub (Data e)) w)) as HA.
    cbn [world] in HA.
    destruct (executeAttrs fuel 0 _) as [m [[nx|]|err|]]; try discriminate;
      cbn [fst] in HA.
    + injection H as <- <- <- <-. exact HA.
    + destruct (sub m) as [s|].
      * destruct (executeSub s) as [subNode|err|]; try discriminate.
        pose proof (Grows_spliceSub subNode m) as HS.
        destruct (spliceSub subNode m) as [m' [nx|err|]]; try discriminate.
        injection H as <- <- <- <-. cbn [fst] in HS.
        eapply grows_trans; [exact HA|exact HS].
      * destruct (executeChildren _ _ _ _ _) as [[kids w1]|err|] eqn:EC;
          try discriminate.
        injection H as <- <- <- <-.
        eapply grows_trans; [exact HA|].
        eapply executeChildren_grows, EC. intros; eapply IH; eassumption.
  - cbn [executeElement] in H. injection H as <- <- <- <-. apply grows_refl.
  - cbn [executeElement] in H. injection H as <- <- <- <-. apply grows_refl.
Qed.

(** X17.  An execution that returns a tree has deleted no field of the
    context and no listener: every field that the context had is
    still in it (with a value that the loops of [v-for] may have
    changed), and the listeners of before come first in the list, in
    their order. *)
Theorem execute_grows (fuel : nat) (tmpl : string) (w w' : World) (n : Node) :
  execute fuel tmpl w = Ok (n, w') -> grows w w'.
Proof.
  unfold execute. destruct (parseNode tmpl) as [root|err|]; try discriminate.
  destruct (executeElement fuel root _ w) as [[[[n1 p1] w1] nx]|err|] eqn:E;
    try discriminate.
  destruct (executeText n1 (data w1)) as [n2|err|]; try discriminate.
  intros H. injection H as <- <-. eapply executeElement_grows, E.
Qed.

End Shared.

(** ** The text pass *)

Section TextPass.

Context {host : Host}.

Lemma executeTexts_shape (kids kids' : list Node) (d : gmap string Value) :
  List.Forall (fun n => forall n', executeText n d = Ok n' -> shape n' = shape n)
    kids ->
  executeTexts kids d = Ok kids' -> map shape kids' = map shape kids.
Proof.
  intros Hall. revert kids'.
  induction Hall as [|x l Hx Hl IH]; intros kids' H; cbn [executeTexts] in H.
  - injection H as <-. reflexivity.
  - destruct (executeText x d) as [x'|err|] eqn:Ex; try discriminate.
    destruct (executeTexts l d) as [l'|err|] eqn:El; try discriminate.
    injection H as <-. cbn [map]. now rewrite (Hx x' eq_refl), (IH l' eq_refl).
Qed.

(** X18.  The text pass changes the contents of text nodes and nothing
    else: the tree it returns has the elements, attributes and
    comments of the tree it was given, and a text node wherever that
    tree had one. *)
Theorem executeText_shape (n n' : Node) (d : gmap string Value) :
  executeText n d = Ok n' -> shape n' = shape n.
Proof.
  revert n'. induction n as [tag attrs kids IH|content|content]
    using Node_induction; intros n' H.
  - rewrite executeText_element in H. cbn [Children Data Attr] in H.
    destruct (executeTexts kids d) as [kids'|err|] eqn:E; try discriminate.
    injection H as <-. cbn [shape Data Attr Children].
    now rewrite (executeTexts_shape kids kids' d IH E).
  - cbn [executeText] in H.
    destruct (String.eqb (TrimSpace content) ""); [now injection H as <-|].
    destruct (mustacheRender content d); [|discriminate].
    now injection H as <-.
  - cbn [executeText] in H. now injection H as <-.
Qed.

Lemma executeTexts_outcome (kids : list Node) (d : gmap string Value) :
  List.Forall (fun n =>
    if renders d n then exists n', executeText n d = Ok n'
    else executeText n d = Panic (Foreign "mustache.Render")) kids ->
  if forallb (renders d) kids then exists kids', executeTexts kids d = Ok kids'
  else executeTexts kids d = Panic (Foreign "mustache.Render").
Proof.
  induction 1 as [|x l Hx Hl IH]; cbn [forallb executeTexts]; [now exists []|].
  destruct (renders d x); cbn [andb].
  - destruct Hx as [x' ->]. destruct (forallb (renders d) l).
    + destruct IH as [l' ->]. now eexists.
    + now rewrite IH.
  - now rewrite Hx.
Qed.

(** X19.  The text pass fails in one way only, with the error of the
    mustache library: it returns a tree when the library renders
    every text node that is not all white space, and panics with that
    error otherwise, however deep the node that is not rendered. *)
Theorem executeText_outcome (n : Node) (d : gmap string Value) :
  if renders d n then exists n', executeText n d = Ok n'
  else executeText n d = Panic (Foreign "mustache.Render").
Proof.
  induction n as [tag attrs kids IH|content|content] using Node_induction.
  - rewrite executeText_element. cbn [renders Children Data Attr].
    pose proof (executeTexts_outcome kids d IH) as H.
    destruct (forallb (renders d) kids).
    + destruct H as [kids' ->]. now eexists.
    + now rewrite H.
  - cbn [renders executeText].
    destruct (String.eqb (TrimSpace content) ""); cbn [orb]; [now eexists|].
    destruct (mustacheRender content d); [now eexists|reflexivity].
  - cbn [renders executeText]. now eexists.
Qed.

End TextPass.

(** ** Directives of an unknown kind: authored and appended (claim C4) *)

Lemma filter_class_placed (r : nat) (l : list Attribute) :
  r <> 7%nat ->
  List.filter (inClass place_of r)
    (List.filter (fun a => negb (Nat.eqb (place_of a) 7)) l)
  = List.filter (inClass place_of r) l.
Proof.
  intros Hr. induction l as [|a l IH]; [reflexivity|].
  cbn [List.filter]. unfold inClass at 2 4.
  destruct (Nat.eqb_spec (place_of a) 7) as [E|E]; cbn [negb].
  - rewrite E. destruct (Nat.eqb_spec 7 r) as [E'|_]; [now destruct Hr|exact IH].
  - cbn [List.filter]. unfold inClass at 1.
    destruct (Nat.eqb (place_of a) r); [now rewrite IH|exact IH].
Qed.

(** The attributes without a place do not count for the orderer. *)
Lemma orderAttrs_discards (attrs : list Attribute) :
  orderAttrs (List.filter (fun a => negb (Nat.eqb (place_of a) 7)) attrs)
  = orderAttrs attrs.
Proof.
  rewrite !orderAttrs_blocks. unfold blocks, places. cbn [flat_map].
  now rewrite !filter_class_placed by discriminate.
Qed.

Section Unknown.

Context {host : Host}.

Lemma attrsReach_S (fuel i : nat) (m : Mem) (attr : Attribute) (m1 : Mem) :
  attrsReach (S fuel) i m attr m1
  = match Attr (node m) !! i with
    | None => False
    | Some a =>
        if HasPrefix (Key a) v then
          (a = attr /\ withAttr (deleteAttr (Attr (node m)) i) m = m1)
          \/ exists m' next,
               executeAttr a (withAttr (deleteAttr (Attr (node m)) i) m)
               = (m', Ok (next, false))
               /\ attrsReach fuel i m' attr m1
        else attrsReach fuel (S i) m attr m1
    end.
Proof. reflexivity. Qed.

(** The loop over the attributes passes over the attributes that are
    no directives. *)
Lemma attrsReach_skip (k fuel i : nat) (m : Mem) (attr : Attribute) (m1 : Mem) :
  (forall j a, (i <= j < i + k)%nat ->
     Attr (node m) !! j = Some a -> plain a = true) ->
  attrsReach fuel (i + k) m attr m1 ->
  attrsReach (k + fuel) i m attr m1.
Proof.
  revert i. induction k as [|k IH]; intros i Hp H.
  - now rewrite Nat.add_0_r in H.
  - assert (Hi : is_Some (Attr (node m) !! i)).
    { destruct fuel as [|fuel]; [destruct H|]. rewrite attrsReach_S in H.
      destruct (Attr (node m) !! (i + S k)%nat) as [a|] eqn:E; [|destruct H].
      apply lookup_lt_is_Some. apply lookup_lt_Some in E. lia. }
    destruct Hi as [a Ha]. cbn [Nat.add]. rewrite attrsReach_S, Ha.
    pose proof (Hp i a ltac:(lia) Ha) as Hpl. unfold plain in Hpl.
    apply negb_true_iff in Hpl. rewrite Hpl.
    apply IH.
    + intros j b Hj. apply Hp. lia.
    + now replace (S i + k)%nat with (i + S k)%nat by lia.
Qed.

(** [v-on:key] first in the order of execution, before attributes
    that are no directives: the loop comes to dispatch the attribute
    [key] that the handler appends, when [key] is a directive key. *)
Lemma reaches_appended (fuel : nat) (e : Elem Node) (p : Place) (w : World)
    (key method : string) (rest : list Attribute) :
  HasPrefix key v = true ->
  Contains key ":" = false ->
  orderAttrs (Attr e) = mkAttr (vOn +:+ ":" +:+ key) method :: rest ->
  forallb plain rest = true ->
  reaches (S (S (S (length rest + fuel)))) (Element e) p w (mkAttr key method)
    (mkMem (mkElem (Data e) rest (Children e)) p (newSub (Data e))
           (mkWorld (id w) (data w) (listeners w ++ [(key, HOn)]))).
Proof.
  intros Hv Hc Ho Hp. cbn [reaches]. left. rewrite Ho, attrsReach_S.
  cbn [node Attr lookup list_lookup].
  assert (Hon : HasPrefix (vOn +:+ ":" +:+ key) v = true).
  { apply kind_directive. rewrite kind_colon by reflexivity.
    unfold kinds. simpl. tauto. }
  cbn [Key]. rewrite Hon. right.
  exists (mkMem (mkElem (Data e) (rest ++ [mkAttr key method]) (Children e)) p
                (newSub (Data e))
                (mkWorld (id w) (data w) (listeners w ++ [(key, HOn)]))), [].
  split.
  - rewrite executeAttr_on by (apply kind_colon; reflexivity).
    cbn [Key Val]. rewrite part_colon by (reflexivity || exact Hc).
    unfold withAttr, deleteAttr. cbn [firstn skipn app node Attr]. rewrite drop_0.
    reflexivity.
  - replace (S (length rest + fuel)) with (length rest + S fuel)%nat by lia.
    apply attrsReach_skip.
    + intros j a Hj Ha. cbn [node Attr] in Ha.
      rewrite lookup_app_l in Ha by lia.
      apply forallb_Forall in Hp. rewrite List.Forall_forall in Hp.
      apply Hp. apply list_elem_of_In. eapply list_elem_of_lookup_2, Ha.
    + rewrite Nat.add_0_l, attrsReach_S. cbn [node Attr].
      rewrite lookup_app_r by lia. rewrite Nat.sub_diag.
      cbn [lookup list_lookup Key]. rewrite Hv. left. split; [reflexivity|].
      unfold withAttr, deleteAttr. cbn [node Attr Data Children place sub world].
      rewrite take_app_length.
      rewrite drop_ge by (rewrite length_app; cbn [length]; lia).
      now rewrite app_nil_r.
Qed.

(** C4, as the code has it.  The dispatch of an attribute whose kind
    is none of the six panics with "unknown vue attribute" and the
    kind, and every execution of a node that comes to dispatch the
    attribute returns that panic.  The attribute is dispatched when it
    starts with one of the six prefixes and is the first in the order
    of execution of its element, and when a directive appends it in
    the course of the execution, as [v-on:key] does for a [key] with
    the prefix "v-".  An attribute that is authored with the prefix
    "v-" and none of the six prefixes is not dispatched: [orderAttrs]
    keeps no such attribute, and the element is executed as the
    element without these attributes is. *)
Theorem unknown_kind_panics (attr : Attribute) :
  ~ In (kind (Key attr)) kinds ->
  (forall m, executeAttr attr m = (m, Panic (UnknownAttribute (kind (Key attr)))))
  /\ (forall fuel n p w m1,
        reaches fuel n p w attr m1 ->
        executeElement fuel n p w = Panic (UnknownAttribute (kind (Key attr))))
  /\ (forall fuel e p w rest,
        orderAttrs (Attr e) = attr :: rest ->
        (place_of attr < 6)%nat ->
        executeElement (S (S fuel)) (Element e) p w
        = Panic (UnknownAttribute (kind (Key attr))))
  /\ (forall attrs, Forall (fun a => place_of a <> 7%nat) (orderAttrs attrs))
  /\ (forall fuel e p w,
        executeElement fuel (Element e) p w
        = executeElement fuel
            (Element (mkElem (Data e)
               (List.filter (fun a => negb (Nat.eqb (place_of a) 7)) (Attr e))
               (Children e))) p w)
  /\ (forall fuel e p w rest,
        HasPrefix (Key attr) v = true ->
        Contains (Key attr) ":" = false ->
        orderAttrs (Attr e)
        = mkAttr (vOn +:+ ":" +:+ Key attr) (Val attr) :: rest ->
        forallb plain rest = true ->
        executeElement (S (S (S (length rest + fuel)))) (Element e) p w
        = Panic (UnknownAttribute (kind (Key attr)))).
Proof.
  intros Hk.
  assert (Hx : forall m, executeAttr attr m
                         = (m, Panic (UnknownAttribute (kind (Key attr)))))
    by (intros m; now apply executeAttr_unknown).
  split; [exact Hx|]. split; [|split; [|split; [|split]]].
  - intros fuel n p w m1 Hr. exact (reaches_panic _ _ _ _ _ _ _ _ Hr (Hx m1)).
  - intros fuel e p w rest Ho Hp.
    eapply reaches_panic; [|apply Hx].
    apply (reaches_first fuel e p w attr rest Ho). now apply placed_directive.
  - apply orderAttrs_placed.
  - intros fuel e p w. destruct fuel as [|fuel]; [reflexivity|].
    rewrite !executeElement_element. cbn [Data Attr Children].
    now rewrite orderAttrs_discards.
  - intros fuel e p w rest Hv Hc Ho Hp.
    destruct attr as [key method]. cbn [Key Val] in *.
    eapply reaches_panic; [|apply Hx].
    now apply reaches_appended.
Qed.

End Unknown.

(** ** Every directive is discarded or consumed (claim C10) *)

(** *** The pieces of a key are shorter than the key *)

Lemma length_append_one (cur : string) (c : ascii) :
  String.length (cur +:+ String c "") = S (String.length cur).
Proof.
  induction cur as [|a cur IH]; [reflexivity|].
  rewrite append_String. cbn [String.length]. now rewrite IH.
Qed.

Lemma list_sum_cons (a : nat) (l : list nat) :
  list_sum (a :: l) = (a + list_sum l)%nat.
Proof. reflexivity. Qed.

Lemma splitFrom_colon_lengths (s cur : string) :
  (list_sum (map String.length (splitFrom ":" 0 cur s))
   + length (splitFrom ":" 0 cur s))%nat
  = S (String.length cur + String.length s).
Proof.
  revert cur. induction s as [|c s IH]; intros cur.
  - simpl. lia.
  - rewrite splitFrom_step. destruct (HasPrefix (String c s) ":").
    + change (String.length ":" - 1)%nat with 0%nat.
      specialize (IH ""). cbn [map length String.length] in *.
      rewrite list_sum_cons. lia.
    + rewrite IH, length_append_one. cbn [String.length]. lia.
Qed.

Lemma part_shorter (key : string) :
  key <> "" -> (String.length (part key) < String.length key)%nat.
Proof.
  intros Hne. unfold part, Split.
  pose proof (splitFrom_colon_lengths key "") as H.
  assert (Hk : (0 < String.length key)%nat)
    by (destruct key; [congruence|cbn [String.length]; lia]).
  destruct (splitFrom ":" 0 "" key) as [|p0 [|p1 l]]; simpl in *; lia.
Qed.

Lemma toll_pos (key : string) : (1 <= toll key)%nat.
Proof. unfold toll. destruct (HasPrefix key v); lia. Qed.

Lemma toll_part (key : string) :
  HasPrefix key v = true -> (toll (part key) < toll key)%nat.
Proof.
  intros Hv. assert (Hne : key <> "") by (intros ->; discriminate Hv).
  pose proof (part_shorter key Hne) as Hs.
  unfold toll at 2. rewrite Hv. unfold toll.
  destruct (HasPrefix (part key) v); lia.
Qed.

Lemma tolls_app (l k : list Attribute) : tolls (l ++ k) = (tolls l + tolls k)%nat.
Proof. unfold tolls. now rewrite map_app, list_sum_app. Qed.

(** *** The loop over the attributes ends *)

Section Ending.

Context {host : Host}.

Lemma Ends_ret {A} (a : A) : Ends (ret a).
Proof. intros m. discriminate. Qed.

Lemma Ends_panic {A} (e : Error) : Ends (panic (A := A) e).
Proof. intros m. discriminate. Qed.

Lemma Ends_get : Ends get.
Proof. intros m. discriminate. Qed.

Lemma Ends_modify (f : Mem -> Mem) : Ends (modify f).
Proof. intros m. discriminate. Qed.

Lemma Ends_bind {A B} (c : M A) (k : A -> M B) :
  Ends c -> (forall a, Ends (k a)) -> Ends (bind c k).
Proof.
  intros Hc Hk m. unfold bind. specialize (Hc m).
  destruct (c m) as [m1 [a|e|]]; cbn [snd] in *;
    [apply Hk|discriminate|now destruct Hc].
Qed.

Ltac ends_step :=
  first [ apply Ends_ret | apply Ends_panic | apply Ends_get | apply Ends_modify
        | apply Ends_bind; [|intros ?]
        | match goal with
          | |- Ends (match ?x with _ => _ end) => destruct x
          end ].

Lemma Ends_forEach {A} (l : list A) (body : A -> M unit) :
  (forall x, Ends (body x)) -> Ends (forEach l body).
Proof.
  intros H. induction l as [|x l IH]; cbn [forEach]; [apply Ends_ret|].
  apply Ends_bind; [apply H|intros _; exact IH].
Qed.

Lemma Ends_InsertBefore (child : Node) : Ends (InsertBefore child).
Proof. unfold InsertBefore. repeat ends_step. Qed.

Lemma Ends_RemoveChild : Ends RemoveChild.
Proof. unfold RemoveChild. repeat ends_step. Qed.

Lemma Ends_forLoop (name elem : string) (values : list Value) (buf : string) :
  Ends (forLoop name elem values buf).
Proof.
  revert buf. induction values as [|x values IH]; intros buf; cbn [forLoop];
    [apply Ends_ret|].
  apply Ends_bind; [apply Ends_get|intros m0].
  apply Ends_bind; [apply Ends_modify|intros _; apply IH].
Qed.

(** No handler needs fuel: a dispatch returns or panics. *)
Lemma Ends_executeAttr (attr : Attribute) : Ends (executeAttr attr).
Proof.
  unfold executeAttr, executeAttrBind, executeAttrFor, forNames,
    executeAttrHtml, executeAttrIf, executeAttrModel, executeAttrOn, must,
    parseNodes, appendAttr, addEventListener, AppendChild.
  repeat first
    [ apply Ends_forLoop | apply Ends_RemoveChild
    | apply Ends_forEach; intros ?;
        first [apply Ends_InsertBefore | apply Ends_modify]
    | ends_step ].
Qed.

Lemma executeAttrBind_extra (key value : string) (m m' : Mem) (u : unit) :
  executeAttrBind key value m = (m', Ok u) ->
  exists extra, Attr (node m') = (Attr (node m) ++ extra)%list
                /\ (tolls extra <= toll key)%nat.
Proof.
  unfold executeAttrBind, bind, get, must, panic, ret, modify, appendAttr.
  intros H.
  destruct (data (world m) !! value) as [field|]; [|discriminate].
  destruct (hasProp (sub m) (Title key)).
  - destruct (sub m); [|discriminate]. injection H as <- _.
    exists []. cbn. rewrite app_nil_r. split; [reflexivity|lia].
  - destruct field as [s|[|]|z|l|o]; injection H as <- _;
      first [ exists []; cbn; rewrite app_nil_r; split; [reflexivity|lia]
            | eexists; split; [reflexivity|]; unfold tolls; cbn; lia ].
Qed.

Lemma executeAttrOn_extra (typ method : string) (m m' : Mem) (u : unit) :
  executeAttrOn typ method m = (m', Ok u) ->
  exists extra, Attr (node m') = (Attr (node m) ++ extra)%list
                /\ (tolls extra <= toll typ)%nat.
Proof.
  unfold executeAttrOn, bind, modify, appendAttr, addEventListener. simpl.
  intros H. injection H as <- _. eexists. split; [reflexivity|].
  unfold tolls. cbn. lia.
Qed.

Lemma executeAttrModel_extra (field : string) (m m' : Mem) (u : unit) :
  executeAttrModel field m = (m', Ok u) ->
  exists extra, Attr (node m') = (Attr (node m) ++ extra)%list
                /\ (tolls extra <= 2)%nat.
Proof.
  unfold executeAttrModel, bind, get, must, panic, ret, modify, appendAttr,
    addEventListener. simpl. intros H.
  destruct (data (world m) !! field) as [[val| | | |]|]; try discriminate.
  injection H as <- _. exists [mkAttr "input" field; mkAttr "value" val].
  cbn. rewrite <- app_assoc. split; [reflexivity|]. unfold tolls. cbn. lia.
Qed.

Lemma executeAttrHtml_attrs (field : string) (m m' : Mem) (u : unit) :
  executeAttrHtml field m = (m', Ok u) -> Attr (node m') = Attr (node m).
Proof.
  unfold executeAttrHtml. unfold bind at 1, get.
  destruct (data (world m) !! field) as [[html| | | |]|];
    try (unfold must, panic; discriminate).
  unfold bind at 1, parseNodes.
  destruct (ParseFragment html) as [nodes|]; [|unfold must, panic; discriminate].
  unfold ret at 1. rewrite forEach_AppendChild. intros H. now injection H as <- _.
Qed.

(** What a dispatch that does not modify the tree appends counts for
    less than the directive. *)
Lemma executeAttr_extra (attr : Attribute) (m m' : Mem) (next : Ptr) :
  HasPrefix (Key attr) v = true ->
  executeAttr attr m = (m', Ok (next, false)) ->
  exists extra, Attr (node m') = (Attr (node m) ++ extra)%list
                /\ (tolls extra < toll (Key attr))%nat.
Proof.
  intros Hv. pose proof (toll_part (Key attr) Hv) as Hpart.
  assert (H3 : (3 <= toll (Key attr))%nat) by (unfold toll; rewrite Hv; lia).
  unfold executeAttr.
  change (default "" (Split (Key attr) ":" !! 1%nat)) with (part (Key attr)).
  destruct (String.eqb _ vBind).
  { unfold bind. destruct (executeAttrBind _ _ m) as [m1 [u| |]] eqn:E;
      try discriminate. unfold ret. intros H. injection H as <- _.
    destruct (executeAttrBind_extra _ _ _ _ _ E) as [extra [Hx Ht]].
    exists extra. split; [exact Hx|lia]. }
  destruct (String.eqb _ vFor).
  { intros H. apply executeAttrFor_modified in H. discriminate H. }
  destruct (String.eqb _ vHtml).
  { unfold bind. destruct (executeAttrHtml _ m) as [m1 [u| |]] eqn:E;
      try discriminate. unfold ret. intros H. injection H as <- _.
    apply executeAttrHtml_attrs in E.
    exists []. rewrite app_nil_r. split; [exact E|unfold tolls; cbn; lia]. }
  destruct (String.eqb _ vIf).
  { intros H. rewrite executeAttrIf_eq in H.
    destruct (data (world m) !! Val attr) as [[s|[|]|z|l|o]|];
      destruct (attached (place m)); try discriminate H.
    all: injection H as <- _; exists []; rewrite app_nil_r;
      split; [reflexivity|unfold tolls; cbn; lia]. }
  destruct (String.eqb _ vModel).
  { unfold bind. destruct (executeAttrModel _ m) as [m1 [u| |]] eqn:E;
      try discriminate. unfold ret. intros H. injection H as <- _.
    destruct (executeAttrModel_extra _ _ _ _ E) as [extra [Hx Ht]].
    exists extra. split; [exact Hx|lia]. }
  destruct (String.eqb _ vOn).
  { unfold bind. destruct (executeAttrOn _ _ m) as [m1 [u| |]] eqn:E;
      try discriminate. unfold ret. intros H. injection H as <- _.
    destruct (executeAttrOn_extra _ _ _ _ _ E) as [extra [Hx Ht]].
    exists extra. split; [exact Hx|lia]. }
  unfold must, panic. discriminate.
Qed.

End Ending.

Section Consumed.

Context {host : Host}.

(** With more fuel than the attributes from the index on count for,
    the loop over the attributes does not run out of it. *)
Lemma executeAttrs_ends (fuel i : nat) (m : Mem) :
  (tolls (drop i (Attr (node m))) < fuel)%nat ->
  snd (executeAttrs fuel i m) <> OutOfFuel.
Proof.
  revert i m. induction fuel as [|fuel IH]; intros i m Hf; [lia|].
  destruct (Attr (node m) !! i) as [attr|] eqn:Hi.
  - pose proof (drop_S _ _ _ Hi) as Hd. rewrite Hd in Hf.
    change (tolls (attr :: drop (S i) (Attr (node m))))
      with (toll (Key attr) + tolls (drop (S i) (Attr (node m))))%nat in Hf.
    destruct (HasPrefix (Key attr) v) eqn:Hv.
    + rewrite (executeAttrs_dispatch fuel i m attr Hi Hv).
      pose proof (Ends_executeAttr attr
                    (withAttr (deleteAttr (Attr (node m)) i) m)) as He.
      destruct (executeAttr attr _) as [m1 [[next [|]]|err|]] eqn:E;
        cbn [snd] in *; try discriminate; [|now destruct He].
      destruct (executeAttr_extra _ _ _ _ Hv E) as [extra [Hx Ht]].
      apply IH. rewrite Hx. cbn [withAttr node Attr]. unfold deleteAttr.
      apply lookup_lt_Some in Hi.
      rewrite <- app_assoc, drop_app_length'
        by (rewrite length_take; lia).
      rewrite tolls_app. lia.
    + rewrite (executeAttrs_skip fuel i m attr Hi Hv). apply IH.
      pose proof (toll_pos (Key attr)). lia.
  - rewrite (executeAttrs_end fuel i m Hi). discriminate.
Qed.

(** C10.  No element of the tree that a complete execution returns
    carries an attribute whose key starts with "v-", when the trees
    that the subcomponents return have none; and this is so because
    every directive is discarded by the orderer or consumed by the
    dispatcher.  The orderer keeps the attributes that have a place in
    the order and no other: an attribute with the prefix "v-" and none
    of the six prefixes is discarded.  The loop over the attributes
    takes the directive at hand out of the list, it alone, before it
    dispatches it, and goes on at the same index.  With fuel for what
    the attributes count for, the loop ends: in a panic, or with the
    node out of the tree, or with no directive left on the node. *)
Theorem execute_clean :
  (forall attrs a,
     In a (orderAttrs attrs) <-> In a attrs /\ place_of a <> 7%nat)
  /\ (forall fuel i m attr,
        Attr (node m) !! i = Some attr ->
        HasPrefix (Key attr) v = true ->
        let m2 := withAttr (deleteAttr (Attr (node m)) i) m in
        Attr (node m)
        = (firstn i (Attr (node m2)) ++ attr :: skipn i (Attr (node m2)))%list
        /\ executeAttrs (S fuel) i m
           = match executeAttr attr m2 with
             | (m', Ok (next, true)) => (m', Ok (Some next))
             | (m', Ok (_, false)) => executeAttrs fuel i m'
             | (m', Panic err) => (m', Panic err)
             | (m', OutOfFuel) => (m', OutOfFuel)
             end)
  /\ (forall fuel m,
        (tolls (Attr (node m)) < fuel)%nat ->
        match executeAttrs fuel 0 m with
        | (m', Ok None) =>
            List.Forall (fun a => plain a = true) (Attr (node m'))
        | (_, Ok (Some _)) => True
        | (_, Panic _) => True
        | (_, OutOfFuel) => False
        end)
  /\ (forall fuel tmpl w w' n,
        cleanSubs ->
        execute fuel tmpl w = Ok (n, w') ->
        clean n = true).
Proof.
  split; [|split; [|split]].
  - intros attrs a. split.
    + intros Ha. apply (Permutation_in _ (orderAttrs_perm attrs)) in Ha.
      apply filter_In in Ha. destruct Ha as [Hin Hp]. split; [exact Hin|].
      now apply negb_true_iff, Nat.eqb_neq in Hp.
    + intros [Hin Hp].
      apply (Permutation_in _ (Permutation_sym (orderAttrs_perm attrs))).
      apply filter_In. split; [exact Hin|].
      now apply negb_true_iff, Nat.eqb_neq.
  - intros fuel i m attr Hi Hv m2. split.
    + unfold m2, withAttr, deleteAttr. cbn [node Attr].
      pose proof (lookup_lt_Some _ _ _ Hi) as Hlt.
      rewrite take_app_length' by (rewrite length_take; lia).
      rewrite drop_app_length' by (rewrite length_take; lia).
      symmetry. now apply take_drop_middle.
    + now apply executeAttrs_dispatch.
  - intros fuel m Hf.
    pose proof (executeAttrs_ends fuel 0 m) as He. rewrite drop_0 in He.
    specialize (He Hf).
    destruct (executeAttrs fuel 0 m) as [m' [[next|]|err|]] eqn:E;
      cbn [snd] in He; try exact I; [|now destruct He].
    apply (executeAttrs_inv fuel 0 m m' None (List.Forall_nil _) E).
  - intros fuel tmpl w w' n Hsub H. unfold execute, parseNode in H.
    destruct (ParseFragment tmpl) as [nodes|]; [|discriminate].
    destruct (executeElement fuel _ _ w) as [[[[n1 p1] w1] next]|err|] eqn:E;
      try discriminate.
    destruct (executeText n1 (data w1)) as [n2|err|] eqn:ET; try discriminate.
    injection H as <- <-.
    apply (executeElement_visited _ _ _ _ _ Hsub) in E. cbn in E.
    now apply (executeText_clean n1 n2 (data w1)).
Qed.

End Consumed.

(** ** The further statements at concrete inputs *)

Lemma orderAttrs_fixed_points_witness :
  orderAttrs [mkAttr "v-for" "a in b"; mkAttr "v-if" "Show"; mkAttr "class" "x"]
  = [mkAttr "v-for" "a in b"; mkAttr "v-if" "Show"; mkAttr "class" "x"].
Proof.
  apply (proj2 (orderAttrs_fixed_points
    [mkAttr "v-for" "a in b"; mkAttr "v-if" "Show"; mkAttr "class" "x"])).
  split.
  - repeat constructor; vm_compute; lia.
  - repeat constructor; vm_compute; lia.
Defined.

Lemma executeAttr_on_event_witness :
  executeAttr (host := Toy.host) (mkAttr "v-on:click" "Go") (Toy.mem [])
  = (mkMem (mkElem "p" [mkAttr "click" "Go"] [Text "hi"])
           (mkPlace true [Text "a"] [Text "b"; Text "c"]) None
           (mkWorld 0 Toy.context [("click", HOn)]),
     Ok ([], false)).
Proof.
  exact (proj1 (executeAttr_on_event (host := Toy.host) "click" "Go" (Toy.mem [])
                  eq_refl)).
Defined.

Lemma executeAttr_bind_emits_witness :
  executeAttr (host := Toy.host) (mkAttr "v-bind:title" "Name") (Toy.mem [])
  = (Toy.mem [mkAttr "title" "Ann"], Ok ([], false)).
Proof.
  exact (proj1 (executeAttr_bind_emits (host := Toy.host) "title" "Name"
                  (VString "Ann") (Toy.mem []) eq_refl eq_refl eq_refl)).
Defined.

Lemma executeAttr_bind_prop_witness :
  executeAttr (host := Kit.host) (mkAttr "v-bind:title" "Name") Kit.todo
  = (mkMem (host := Kit.host) (mkElem "todo" [] [])
           (mkPlace true [Text "a"] [Text "b"])
           (Some [("title", VString "Ann")]) Kit.start,
     Ok ([], false)).
Proof.
  exact (executeAttr_bind_prop (host := Kit.host) "title" "Name" (VString "Ann")
           [] Kit.todo eq_refl eq_refl eq_refl eq_refl).
Defined.

Lemma executeAttr_html_appends_witness :
  executeAttr (host := Kit.host) (mkAttr "v-html" "Name") Kit.todo
  = (withChildren [Text "Ann"] Kit.todo, Ok ([], false))
  /\ executeAttr (host := Kit.host) (mkAttr "v-html" "Broken") Kit.todo
     = (Kit.todo, Panic (Foreign "html.ParseFragment"))
  /\ executeAttr (host := Kit.host) (mkAttr "v-html" "Todos") Kit.todo
     = (Kit.todo, Panic NotOfTypeString).
Proof.
  split; [|split].
  - exact (proj1 (executeAttr_html_appends (host := Kit.host) "Name" Kit.todo)
             "Ann" [Text "Ann"] eq_refl eq_refl).
  - exact (proj1 (proj2 (executeAttr_html_appends (host := Kit.host) "Broken"
                           Kit.todo)) "<b" eq_refl eq_refl).
  - refine (proj2 (proj2 (executeAttr_html_appends (host := Kit.host) "Todos"
                            Kit.todo))
              (VSlice [VString "learn"; VString "build"]) eq_refl _).
    intros html. discriminate.
Defined.

Lemma executeAttr_if_other_value_witness :
  executeAttr (host := Toy.host) (mkAttr "v-if" "Name") (Toy.mem [])
  = (detached (Toy.mem []), Ok ([Text "b"; Text "c"], true)).
Proof.
  refine (executeAttr_if_other_value (host := Toy.host) "Name" (VString "Ann")
            (Toy.mem []) eq_refl _ eq_refl).
  discriminate.
Defined.

Lemma executeAttr_signal_witness :
  kind "v-if" = vFor \/ kind "v-if" = vIf.
Proof.
  exact (proj1 (executeAttr_signal (host := Toy.host) (mkAttr "v-if" "Hide")
                  (Toy.mem []) (detached (Toy.mem [])) [Text "b"; Text "c"] true
                  eq_refl) eq_refl).
Defined.

Lemma executeAttrFor_failures_witness :
  executeAttr (host := Kit.host) (mkAttr "v-for" "Todos") Kit.todo
  = (Kit.todo, Panic IndexOutOfRange)
  /\ executeAttr (host := Kit.host) (mkAttr "v-for" "Todo in Todos") Kit.svg
     = (Kit.svg, Panic (Foreign "html.Render"))
  /\ executeAttr (host := Kit.host) (mkAttr "v-for" "c in Done") Kit.todo
     = (Kit.todo, Panic ReflectPanic).
Proof.
  split; [|split].
  - exact (proj1 (executeAttrFor_failures (host := Kit.host) "Todos" Kit.todo)
             eq_refl).
  - exact (proj1 (proj2 (executeAttrFor_failures (host := Kit.host)
                           "Todo in Todos" Kit.svg))
             "Todo" "Todos" (VSlice [VString "learn"; VString "build"])
             eq_refl eq_refl eq_refl).
  - exact (proj2 (proj2 (executeAttrFor_failures (host := Kit.host)
                           "c in Done" Kit.todo))
             "c" "Done" (VBool true) "<todo></todo>"
             eq_refl eq_refl eq_refl
             (or_introl (ex_intro _ true eq_refl))).
Defined.

Lemma forLoop_binds_witness :
  let run := forLoop (host := Toy.host) "Todo" "<li>{{ Todo }}</li>"
               [VString "learn"; VString "build"] "" (Toy.mem []) in
  snd run = Ok "<li>{{ Todo0 }}</li><li>{{ Todo1 }}</li>"
  /\ id (world (fst run)) = 2.
Proof.
  intros run.
  pose proof (forLoop_binds (host := Toy.host) "Todo" "<li>{{ Todo }}</li>"
                [VString "learn"; VString "build"] "" (Toy.mem [])) as T.
  simpl in T.
  assert (H0 : 0 <= 0) by lia.
  assert (H1 : 0 + 2 < 2 ^ 63) by lia.
  exact (conj (proj1 (T H0 H1)) (proj1 (proj2 (T H0 H1)))).
Defined.

Lemma toy_loop_parses (buf : string) :
  snd (forLoop (host := Toy.host) "Todo" "<li>{{ Todo }}</li>"
         [VString "learn"; VString "build"] ""
         (mkMem (mkElem "li" [] [Text "{{ Todo }}"]) (mkPlace true [] [])
                None Toy.start)) = Ok buf ->
  ParseFragment (Host := Toy.host) buf
  = Some [Toy.li [] "{{ Todo0 }}"; Toy.li [] "{{ Todo1 }}"].
Proof.
  intros H. vm_compute in H. injection H as <-. reflexivity.
Defined.

Lemma executeAttrFor_replaces_witness :
  let m := mkMem (mkElem "li" [] [Text "{{ Todo }}"]) (mkPlace true [] [])
                 None Toy.start in
  snd (executeAttr (host := Toy.host) (mkAttr "v-for" "Todo in Todos") m)
  = Ok ([Toy.li [] "{{ Todo0 }}"; Toy.li [] "{{ Todo1 }}"], true).
Proof.
  intros m.
  exact (proj1 (executeAttrFor_replaces (host := Toy.host) "Todo in Todos"
                  "Todo" "Todos" "<li>{{ Todo }}</li>"
                  (VSlice [VString "learn"; VString "build"])
                  [VString "learn"; VString "build"]
                  (Toy.li [] "{{ Todo0 }}") [Toy.li [] "{{ Todo1 }}"] m
                  eq_refl eq_refl eq_refl eq_refl eq_refl toy_loop_parses)).
Defined.

Lemma deleteAttr_lookup_witness :
  let attrs := [mkAttr "a" "1"; mkAttr "v-if" "Show"; mkAttr "c" "3"] in
  length (deleteAttr attrs 1) = 2%nat
  /\ deleteAttr attrs 1 !! 0%nat = Some (mkAttr "a" "1")
  /\ deleteAttr attrs 1 !! 1%nat = Some (mkAttr "c" "3").
Proof.
  intros attrs.
  assert (H : (1 < length attrs)%nat) by (simpl; lia).
  split; [|split].
  - exact (proj1 (deleteAttr_lookup attrs 1 H)).
  - refine (proj1 (proj2 (deleteAttr_lookup attrs 1 H)) 0%nat _). lia.
  - refine (proj2 (proj2 (deleteAttr_lookup attrs 1 H)) 1%nat _). lia.
Defined.

Lemma kit_keepsPlainText : keepsPlainText (host := Kit.host).
Proof.
  intros content d H. simpl. unfold Toy.mustache. now rewrite H.
Defined.

Lemma execute_inert_witness :
  execute (host := Kit.host) 10 "<p class='big'>hi</p><!--end-->" Kit.start
  = Ok (Element (mkElem "" []
          [ Element (mkElem "p" [mkAttr "class" "big"] [Text "hi"]);
            Comment "end" ]), Kit.start).
Proof.
  refine (execute_inert (host := Kit.host) 10 "<p class='big'>hi</p><!--end-->"
            [ Element (mkElem "p" [mkAttr "class" "big"] [Text "hi"]);
              Comment "end" ] Kit.start
            kit_keepsPlainText eq_refl eq_refl eq_refl eq_refl _).
  vm_compute. lia.
Defined.

Lemma executeElement_subcomponent_witness :
  let e := mkElem "todo" [mkAttr "class" "x"] [] in
  executeElement (host := Kit.host) 3 (Element e)
    (mkPlace true [Text "a"] [Text "b"]) Kit.start
  = Ok (Element e, mkPlace false [Text "a"; Text "one"; Text "two"] [Text "b"],
        Kit.start, [Text "b"])
  /\ executeElement (host := Kit.host) 3 (Element e) (mkPlace false [] [])
       Kit.start
     = Panic NilDereference.
Proof.
  intros e.
  assert (H : (length (Attr e) < 2)%nat) by (simpl; lia).
  split.
  - exact (proj1 (executeElement_subcomponent (host := Kit.host) 2 e
                    (mkPlace true [Text "a"] [Text "b"]) Kit.start []
                    (Element (mkElem "" [] [Text "one"; Text "two"]))
                    eq_refl eq_refl eq_refl H) eq_refl).
  - exact (proj2 (executeElement_subcomponent (host := Kit.host) 2 e
                    (mkPlace false [] []) Kit.start []
                    (Element (mkElem "" [] [Text "one"; Text "two"]))
                    eq_refl eq_refl eq_refl H) eq_refl).
Defined.

Lemma executeElement_keeps_plain_witness :
  exists e',
    Element (mkElem "p" [mkAttr "class" "big"; mkAttr "click" "Go"] [Text "hi"])
    = Element e'
    /\ Data e' = "p"
    /\ mkPlace true [] [Comment "end"] = mkPlace true [] [Comment "end"]
    /\ [Comment "end"] = [Comment "end"]
    /\ List.Forall (fun a => plain a = true) (Attr e')
    /\ exists extra, Attr e' = ([mkAttr "class" "big"] ++ extra)%list.
Proof.
  exact (executeElement_keeps_plain (host := Toy.host) 10 Toy.paraElem
           (mkPlace true [] [Comment "end"]) (mkPlace true [] [Comment "end"])
           Toy.start (mkWorld 0 Toy.context [("click", HOn)])
           (Element (mkElem "p" [mkAttr "class" "big"; mkAttr "click" "Go"]
                            [Text "hi"]))
           [Comment "end"] eq_refl eq_refl).
Defined.

Lemma executeElement_if_removes_witness :
  executeElement (host := Toy.host) 2
    (Element (mkElem "p" [mkAttr "class" "big"; mkAttr "v-on:click" "Go";
                          mkAttr "v-if" "Hide"] [Text "hi"]))
    (mkPlace true [Text "a"] [Text "b"]) Toy.start
  = Ok (Element (mkElem "p" [mkAttr "v-on:click" "Go"; mkAttr "class" "big"]
                        [Text "hi"]),
        mkPlace false [Text "a"] [Text "b"], Toy.start, [Text "b"]).
Proof.
  refine (executeElement_if_removes (host := Toy.host) 0
            (mkElem "p" [mkAttr "class" "big"; mkAttr "v-on:click" "Go";
                         mkAttr "v-if" "Hide"] [Text "hi"])
            (mkPlace true [Text "a"] [Text "b"]) Toy.start
            (mkAttr "v-if" "Hide")
            [mkAttr "v-on:click" "Go"; mkAttr "class" "big"]
            eq_refl eq_refl _ eq_refl).
  vm_compute. discriminate.
Defined.

Lemma execute_grows_witness :
  grows Toy.start (mkWorld 0 Toy.context [("click", HOn)]).
Proof.
  exact (execute_grows (host := Toy.host) 10 Toy.para Toy.start
           (mkWorld 0 Toy.context [("click", HOn)])
           (Element (mkElem "" []
              [ Element (mkElem "p" [mkAttr "class" "big"; mkAttr "click" "Go"]
                                [Text "hi"]);
                Comment "end" ]))
           eq_refl).
Defined.

Lemma executeText_shape_witness :
  shape (Element (mkElem "" [] [Toy.li [] "Ann"; Text " "]))
  = shape (Element (mkElem "" [] [Toy.li [] "{{ Name }}"; Text " "])).
Proof.
  exact (executeText_shape (host := Toy.host)
           (Element (mkElem "" [] [Toy.li [] "{{ Name }}"; Text " "]))
           (Element (mkElem "" [] [Toy.li [] "Ann"; Text " "]))
           Toy.context eq_refl).
Defined.

Lemma toy_foo_unknown : ~ In (kind "v-foo") kinds.
Proof.
  unfold kinds. simpl. intros H.
  repeat (destruct H as [H|H]; [discriminate H|]). exact H.
Defined.

Lemma unknown_kind_panics_witness :
  executeElement (host := Toy.host) 2 (Element Toy.once) (mkPlace true [] [])
    Toy.start
  = Panic (UnknownAttribute "v-once")
  /\ executeElement (host := Toy.host) 4
       (Element (mkElem "p" [mkAttr "id" "a"; mkAttr "v-on:v-foo" "Go"] []))
       (mkPlace true [] []) Toy.start
     = Panic (UnknownAttribute "v-foo").
Proof.
  split.
  - refine (proj1 (proj2 (proj2 (unknown_kind_panics (host := Toy.host)
              (mkAttr "v-once" "1") toy_once_unknown)))
              0%nat Toy.once (mkPlace true [] []) Toy.start [] eq_refl _).
    vm_compute. lia.
  - exact (proj2 (proj2 (proj2 (proj2 (proj2
             (unknown_kind_panics (host := Toy.host) (mkAttr "v-foo" "Go")
                toy_foo_unknown)))))
             0%nat (mkElem "p" [mkAttr "id" "a"; mkAttr "v-on:v-foo" "Go"] [])
             (mkPlace true [] []) Toy.start [mkAttr "id" "a"]
             eq_refl eq_refl eq_refl eq_refl).
Defined.

Lemma kit_cleanSubs : cleanSubs (host := Kit.host).
Proof.
  intros s subNode H. simpl in H. injection H as <-. reflexivity.
Defined.

Lemma execute_clean_witness :
  clean (Element (mkElem "" []
          [ Text "one"; Text "two";
            Element (mkElem "p" [mkAttr "id" "a"; mkAttr "click" "Go"]
                            [Text "hi"]) ])) = true
  /\ List.Forall (fun a => plain a = true)
       [mkAttr "id" "a"; mkAttr "click" "Go"]
  /\ [mkAttr "v-on:click" "Go"; mkAttr "id" "a"]
     = ([] ++ mkAttr "v-on:click" "Go" :: [mkAttr "id" "a"])%list.
Proof.
  split; [|split].
  - apply (proj2 (proj2 (proj2 (execute_clean (host := Kit.host))))
             10%nat Kit.page Kit.start
             (mkWorld 0 Kit.context [("click", HOn)]) _ kit_cleanSubs).
    vm_compute. reflexivity.
  - refine (proj1 (proj2 (proj2 (execute_clean (host := Kit.host))))
              20%nat
              (mkMem (host := Kit.host)
                 (mkElem "p" [mkAttr "v-on:click" "Go"; mkAttr "id" "a"]
                         [Text "hi"])
                 (mkPlace true [] []) None Kit.start) _).
    vm_compute. lia.
  - exact (proj1 (proj1 (proj2 (execute_clean (host := Kit.host)))
             0%nat 0%nat
             (mkMem (host := Kit.host)
                (mkElem "p" [mkAttr "v-on:click" "Go"; mkAttr "id" "a"]
                        [Text "hi"])
                (mkPlace true [] []) None Kit.start)
             (mkAttr "v-on:click" "Go") eq_refl eq_refl)).
Defined.
